(** * ZMultiField: several bounded fields packed into one sorted-set score

    A shallow embedding of the Go package [zmultifield]
    (zmultifield.go, multifield.go, multifieldset.go) and the properties
    of its bit-allocation codec and of its read-modify-write update.

    Conventions of the embedding:
    - [*big.Int] is [Z]; [And], [Rsh], [Add], [Sub], [Mul], [Cmp], [Sign]
      are the operations of [Z] ([Z.land] and [Z.shiftr] have the two's
      complement meaning that [math/big] documents);
    - [uint64] is a [Z] in [0, 2^64) with the wrap-around written out;
    - [float64] is the type [float64] below (a finite value is [m * 2^e]);
    - a function that can fail returns an [outcome]: a value, a Go [error],
      or a run-time panic. *)

From stdpp Require Import base option list gmap strings.
From Stdlib Require Import ZArith Lia.

Local Open Scope Z_scope.

(** ** Outcomes: value, error or panic *)

(** The errors the package builds with [errors.New] and [fmt.Errorf], one
    constructor per message, and the errors of the Redis client. *)
Inductive error : Type :=
  | ErrNameRequired                                (* "name is required" *)
  | ErrFieldsRequired                              (* "at least one field is required" *)
  | ErrClientRequired                              (* "Redis client is required" *)
  | ErrFieldNotFound (fieldName : string)          (* "field %s not found" *)
  | ErrUnknownUpdateType                           (* "unknown update type" *)
  | ErrOutOfRange (score : Z) (fieldName : string) (* "score %v out of range for field %s" *)
  | ErrRedis (msg : string).                       (* whatever the client returned *)

Inductive outcome (A : Type) : Type :=
  | Ok (a : A)
  | Err (e : error)
  | Panic.
Arguments Ok {A} a.
Arguments Err {A} e.
Arguments Panic {A}.

#[global] Instance outcome_ret : MRet outcome := fun A a => Ok a.
#[global] Instance outcome_bind : MBind outcome := fun A B k c =>
  match c with
  | Ok a => k a
  | Err e => Err e
  | Panic => Panic
  end.

Definition isOk {A} (c : outcome A) : bool :=
  match c with Ok _ => true | _ => false end.


(** ** Machine integers and float64 *)

Definition wrap_uint64 (z : Z) : Z := z mod 2 ^ 64.
Definition wrap_int64 (z : Z) : Z := (z + 2 ^ 63) mod 2 ^ 64 - 2 ^ 63.

(** A [float64]: not-a-number, an infinity, or the finite value [m * 2^e].
    Every finite float64 has this form (with [|m| < 2^53]); the embedding
    does not need the representation to be canonical. *)
Inductive float64 : Type :=
  | NaN
  | Inf (negative : bool)
  | Finite (m e : Z).

(** [math.IsInf(f, 1)] *)
Definition IsInf1 (f : float64) : bool :=
  match f with Inf false => true | _ => false end.

(** [f <= 0] on float64: false for NaN. *)
Definition float_le0 (f : float64) : bool :=
  match f with
  | NaN => false
  | Inf negative => negative
  | Finite m _ => m <=? 0
  end.

(** The integer part of [m * 2^e], truncated toward zero. *)
Definition truncate (m e : Z) : Z :=
  if 0 <=? e then m * 2 ^ e else Z.quot m (2 ^ (- e)).

(** A conversion float64 -> integer whose truncated value does not fit the
    integer type "succeeds but the result value is implementation-dependent"
    (Go specification).  The platform supplies that value. *)
Record platform : Type := {
  uint64_oor : float64 → Z;
  int64_oor : float64 → Z
}.

(** One possible platform: every out-of-range conversion gives the bit
    pattern 0x8000000000000000. *)
Definition refPlatform : platform :=
  {| uint64_oor := fun _ => 2 ^ 63; int64_oor := fun _ => - 2 ^ 63 |}.

(** [float64(i)] for an [int64] [i]: exact up to 53 significant bits, round
    to nearest even beyond. *)
Definition round53 (a : Z) : Z * Z :=
  let k := Z.log2 a + 1 - 53 in
  if k <=? 0 then (a, 0)
  else
    let q := Z.shiftr a k in
    let r := Z.land a (Z.ones k) in
    let half := Z.shiftl 1 (k - 1) in
    if (half <? r) || ((r =? half) && Z.odd q) then (q + 1, k) else (q, k).

Definition float64_of_int64 (i : Z) : float64 :=
  let '(m, e) := round53 (Z.abs i) in
  Finite (Z.sgn i * m) e.

(** [bits.Len64] *)
Definition Len64 (x : Z) : Z := if x =? 0 then 0 else Z.log2 x + 1.

(** ** big.Int operations that allocate *)

(** [big.Int.Lsh] of a non-zero value by [n] bits allocates [n/64] more
    words than its operand.  The Go run time refuses a single allocation
    above 2^48 bytes (64-bit platforms) with the panic
    "makeslice: len out of range"; the embedding panics when the shift count
    alone passes that ceiling ([maxShift] bits) and succeeds below it. *)
Definition maxShift : Z := 2 ^ 51.

Definition Lsh (x n : Z) : outcome Z :=
  if x =? 0 then Ok 0
  else if maxShift <? n then Panic
  else Ok (Z.shiftl x n).

(** [big.Int.BitLen]: length of the absolute value in bits, 0 for 0. *)
Definition BitLen (x : Z) : Z := Len64 (Z.abs x).

(** [big.Int.Int64]: the low 64 bits of the magnitude as an int64, with the
    sign applied (the implementation's behaviour where the documentation
    leaves the result undefined). *)
Definition Int64 (x : Z) : Z :=
  let v := wrap_int64 (Z.abs x) in
  if x <? 0 then wrap_int64 (- v) else v.

(** ** zmultifield.go *)

Definition SortOrder := Z.
Definition Ascending : SortOrder := 1.
Definition Descending : SortOrder := -1.

Definition UpdateType := Z.
Definition Incremental : UpdateType := 1.
Definition Replace : UpdateType := 2.

Record Field : Type := {
  Name : string;
  Sort : SortOrder;
  MaxValue : float64;
  UpdateMode : UpdateType      (* Go: UpdateType *)
}.

(** [MaxBin]: [n] bits set to 1. *)
Definition MaxBin (n : Z) : outcome Z :=
  if n =? 0 then Ok 0
  else result ← Lsh 1 n; Ok (result - 1).

Section Codec.

Context (arch : platform).

(** [uint64(n)] and [int64(n)] for a float64 [n]. *)
Definition uint64_of_float (n : float64) : Z :=
  match n with
  | Finite m e =>
      let t := truncate m e in
      if (0 <=? t) && (t <? 2 ^ 64) then t else wrap_uint64 (uint64_oor arch n)
  | _ => wrap_uint64 (uint64_oor arch n)
  end.

Definition int64_of_float (n : float64) : Z :=
  match n with
  | Finite m e =>
      let t := truncate m e in
      if (- 2 ^ 63 <=? t) && (t <? 2 ^ 63) then t else wrap_int64 (int64_oor arch n)
  | _ => wrap_int64 (int64_oor arch n)
  end.

(** [BitCount]: the number of bits required to represent a value. *)
Definition BitCount (n : float64) : Z :=
  if float_le0 n then 1 else Len64 (uint64_of_float n).

(** ** multifield.go *)

Record multiField : Type := {
  toField : Field;             (* the embedded Field *)
  bits : Z;                    (* uint64 *)
  position : nat;
  shiftValue : Z;              (* uint64 *)
  mask : Z;
  isMain : bool;
  maxAbsolute : Z;
  multiplier : Z               (* 1 for ascending, -1 for descending *)
}.

Definition newMultiField (f : Field) : outcome multiField :=
  let main := IsInf1 (MaxValue f) in
  let bits := if main then 53 else BitCount (MaxValue f) in
  mask ← MaxBin bits;
  let maxAbsolute := if main then 2 ^ 53 - 1 else mask in
  let multiplier := if Sort f =? Descending then -1 else 1 in
  Ok {| toField := f; bits := bits; position := 0%nat; shiftValue := 0;
        mask := mask; isMain := main; maxAbsolute := maxAbsolute;
        multiplier := multiplier |}.

Definition defaultScore (mf : multiField) : Z :=
  if Sort (toField mf) =? Descending then maxAbsolute mf else 0.

(** [setIndex]: the receiver is updated in place; the embedding returns the
    updated record. *)
Definition setIndex (pos : nat) (shift : Z) (mf : multiField) : outcome multiField :=
  mask1 ← Lsh (mask mf) shift;
  if isMain mf then
    mask2 ← (if 53 <? BitLen mask1
              then m ← MaxBin 53; Lsh m shift
              else Ok mask1);
    let bits' := wrap_uint64 (53 - shift) in
    maxAbsolute' ← MaxBin bits';
    Ok {| toField := toField mf; bits := bits'; position := pos; shiftValue := shift;
          mask := mask2; isMain := isMain mf; maxAbsolute := maxAbsolute';
          multiplier := multiplier mf |}
  else
    Ok {| toField := toField mf; bits := bits mf; position := pos; shiftValue := shift;
          mask := mask1; isMain := isMain mf; maxAbsolute := maxAbsolute mf;
          multiplier := multiplier mf |}.

(** ** multifieldset.go *)

(** The handle [redis.UniversalClient]; a nil client is [None]. *)
Inductive UniversalClient : Type := ClientHandle.

Record MultiFieldSet : Type := {
  fields : list multiField;
  name : string;
  client : UniversalClient;
  defaultZScore : option Z     (* nil until New has computed it *)
}.

Record MultiFieldSetOptions : Type := {
  optName : string;                    (* Go: Name *)
  optFields : list Field;              (* Go: Fields *)
  optClient : option UniversalClient   (* Go: Client *)
}.

(** [scoresToZScore]: the loop [for i, score := range scores], started at
    index [i] with the accumulator [zscore]; [mfs.fields[i]] panics when
    [i] is out of range. *)
Fixpoint scoresToZScore_from (fs : list multiField) (i : nat) (scores : list Z)
    (zscore : Z) : outcome Z :=
  match scores with
  | [] => Ok zscore
  | score :: rest =>
      match fs !! i with
      | None => Panic
      | Some f =>
          shiftedScore ← Lsh score (shiftValue f);
          scoresToZScore_from fs (S i) rest (zscore + shiftedScore)
      end
  end.

Definition scoresToZScore (mfs : MultiFieldSet) (scores : list Z) : outcome Z :=
  scoresToZScore_from (fields mfs) 0 scores 0.

(** [extractFieldScore]: a nil zscore gives the field's default. *)
Definition extractFieldScore (f : multiField) (zscore : option Z) : Z :=
  match zscore with
  | None => defaultScore f
  | Some z => Z.shiftr (Z.land z (mask f)) (shiftValue f)
  end.

Definition getFieldScores (mfs : MultiFieldSet) (zscore : option Z) : list Z :=
  map (fun f => extractFieldScore f zscore) (fields mfs).

(** [GetFieldByName]: the first field of that name, or nil. *)
Definition GetFieldByName (mfs : MultiFieldSet) (fieldName : string) : option multiField :=
  List.find (fun f => bool_decide (Name (toField f) = fieldName)) (fields mfs).

(** The first loop of [New]. *)
Fixpoint newMultiFields (fs : list Field) : outcome (list multiField) :=
  match fs with
  | [] => Ok []
  | f :: rest =>
      mf ← newMultiField f;
      rest' ← newMultiFields rest;
      Ok (mf :: rest')
  end.

(** The second loop of [New], [for i := len(multiFields) - 1; i >= 0; i--]:
    the fields from index [i] on, last one first; returns them with the
    value of [totalShifts] after the iteration for index [i]. *)
Fixpoint assignIndices (i : nat) (fs : list multiField) : outcome (list multiField * Z) :=
  match fs with
  | [] => Ok ([], 0)
  | mf :: rest =>
      '(rest', totalShifts) ← assignIndices (S i) rest;
      mf' ← setIndex i totalShifts mf;
      Ok (mf' :: rest', wrap_uint64 (totalShifts + bits mf'))
  end.

Definition New (opts : MultiFieldSetOptions) : outcome MultiFieldSet :=
  if bool_decide (optName opts = "") then Err ErrNameRequired
  else if bool_decide (length (optFields opts) = 0%nat) then Err ErrFieldsRequired
  else
    match optClient opts with
    | None => Err ErrClientRequired
    | Some c =>
        multiFields ← newMultiFields (optFields opts);
        '(multiFields', _) ← assignIndices 0 multiFields;
        let mfs := {| fields := multiFields'; name := optName opts; client := c;
                      defaultZScore := None |} in
        z ← scoresToZScore mfs (map defaultScore multiFields');
        Ok {| fields := multiFields'; name := optName opts; client := c;
              defaultZScore := Some z |}
    end.

(** *** The sorted-set store behind the client

    The store is not part of the package.  Its state: the sorted sets (key,
    then member, to score; Redis scores are float64), and the error, if any,
    with which the connection answers reads and writes. *)
Record redis : Type := {
  zsets : gmap string (gmap string float64);
  readFault : option string;
  writeFault : option string
}.

Inductive zscoreReply : Type :=
  | ReplyNil                      (* redis.Nil: no such member *)
  | ReplyErr (msg : string)
  | ReplyScore (score : float64).

Definition ZScore (r : redis) (key member : string) : zscoreReply :=
  match readFault r with
  | Some msg => ReplyErr msg
  | None =>
      match zsets r !! key ≫= (fun zs => zs !! member) with
      | Some score => ReplyScore score
      | None => ReplyNil
      end
  end.

Definition ZAdd (r : redis) (key member : string) (score : float64) : option string * redis :=
  match writeFault r with
  | Some msg => (Some msg, r)
  | None =>
      (None, {| zsets := <[key := <[member := score]> (default ∅ (zsets r !! key))]> (zsets r);
                readFault := readFault r; writeFault := writeFault r |})
  end.

(** *** IncreaseScore *)

(** The body of the loop [for fieldName, incValue := range fields]; an index
    [scores[field.position]] out of range panics. *)
Definition updateField (mfs : MultiFieldSet) (scores : list Z)
    (fieldName : string) (incValue : float64) : outcome (list Z) :=
  match GetFieldByName mfs fieldName with
  | None => Err (ErrFieldNotFound fieldName)
  | Some f =>
      let inc := int64_of_float incValue * multiplier f in
      scores' ←
        (if UpdateMode (toField f) =? Incremental then
           match scores !! position f with
           | None => Panic
           | Some current => Ok (<[position f := current + inc]> scores)
           end
         else if UpdateMode (toField f) =? Replace then
           match scores !! position f with
           | None => Panic
           | Some _ => Ok (<[position f := defaultScore f + inc]> scores)
           end
         else Err ErrUnknownUpdateType);
      (* Check range *)
      match scores' !! position f with
      | None => Panic
      | Some s =>
          if (s <? 0) || (maxAbsolute f <? s)
          then Err (ErrOutOfRange s (Name (toField f)))
          else Ok scores'
      end
  end.

(** The whole loop.  A Go map is iterated in an unspecified order: the list
    is the map's entries in the order of this iteration, its keys distinct. *)
Fixpoint updateScores (mfs : MultiFieldSet) (scores : list Z)
    (updates : list (string * float64)) : outcome (list Z) :=
  match updates with
  | [] => Ok scores
  | (fieldName, incValue) :: rest =>
      scores' ← updateField mfs scores fieldName incValue;
      updateScores mfs scores' rest
  end.

(** "Update scores", "Calculate new zscore", "Update in Redis": the text both
    branches of [IncreaseScore] repeat after they have built [scores]. *)
Definition updateAndStore (mfs : MultiFieldSet) (r : redis) (scores : list Z)
    (updates : list (string * float64)) (member : string) : outcome Z * redis :=
  match scores' ← updateScores mfs scores updates; scoresToZScore mfs scores' with
  | Ok finalZScore =>
      match ZAdd r (name mfs) member (float64_of_int64 (Int64 finalZScore)) with
      | (Some msg, r') => (Err (ErrRedis msg), r')
      | (None, r') => (Ok finalZScore, r')
      end
  | Err e => (Err e, r)
  | Panic => (Panic, r)
  end.

Definition IncreaseScore (mfs : MultiFieldSet) (r : redis)
    (updates : list (string * float64)) (member : string) : outcome Z * redis :=
  match ZScore r (name mfs) member with
  | ReplyNil =>
      (* Member doesn't exist, use default scores *)
      updateAndStore mfs r (map defaultScore (fields mfs)) updates member
  | ReplyErr msg => (Err (ErrRedis msg), r)
  | ReplyScore currentZScore =>
      (* Member exists, update scores *)
      let currentBigZScore := int64_of_float currentZScore in
      updateAndStore mfs r (getFieldScores mfs (Some currentBigZScore)) updates member
  end.

(** *** Presentation *)

Record fieldScore : Type := {
  fsName : string;             (* Go: Name *)
  fsScore : Z                  (* Go: Score *)
}.

(** [zscoreToAllFieldScores]: descending fields are shown complemented. *)
Definition zscoreToAllFieldScores (mfs : MultiFieldSet) (zscore : Z) : list fieldScore :=
  map (fun f =>
         let fieldVal := extractFieldScore f (Some zscore) in
         let fieldVal := if Sort (toField f) =? Descending
                         then maxAbsolute f - fieldVal else fieldVal in
         {| fsName := Name (toField f); fsScore := fieldVal |})
      (fields mfs).

(** *** The other operations of multifield.go and multifieldset.go *)

(** [updateTypeName] *)
Definition updateTypeName (mf : multiField) : string :=
  if UpdateMode (toField mf) =? Incremental then "INCREMENTAL"
  else if UpdateMode (toField mf) =? Replace then "REPLACE"
  else "UNKNOWN".

Record FieldInfo : Type := {
  infoName : string;           (* Go: Name *)
  infoSort : SortOrder;        (* Go: Sort *)
  infoUpdateType : string;     (* Go: UpdateType *)
  infoMaxValue : float64;      (* Go: MaxValue *)
  infoBits : Z;                (* Go: Bits *)
  infoShiftValue : Z;          (* Go: ShiftValue *)
  infoMask : Z;                (* Go: Mask *)
  infoIsMain : bool;           (* Go: IsMain *)
  infoDefaultScore : Z;        (* Go: DefaultScore *)
  infoPosition : nat;          (* Go: Position *)
  infoMaxAbsolute : Z          (* Go: MaxAbsolute *)
}.

Definition getInfo (mf : multiField) : FieldInfo :=
  {| infoName := Name (toField mf); infoSort := Sort (toField mf);
     infoUpdateType := updateTypeName mf; infoMaxValue := MaxValue (toField mf);
     infoBits := bits mf; infoShiftValue := shiftValue mf; infoMask := mask mf;
     infoIsMain := isMain mf; infoDefaultScore := defaultScore mf;
     infoPosition := position mf; infoMaxAbsolute := maxAbsolute mf |}.

Definition GetName (mfs : MultiFieldSet) : string := name mfs.

Definition GetFieldsInfo (mfs : MultiFieldSet) : list FieldInfo :=
  map getInfo (fields mfs).

(** [GetScores]: an absent member is given the default score of each field,
    as it is; an existing one the presentation of its score. *)
Definition GetScores (mfs : MultiFieldSet) (r : redis) (member : string)
    : outcome (list fieldScore) :=
  match ZScore r (name mfs) member with
  | ReplyNil =>
      Ok (map (fun f => {| fsName := Name (toField f); fsScore := defaultScore f |})
            (fields mfs))
  | ReplyErr msg => Err (ErrRedis msg)
  | ReplyScore zscoreStr => Ok (zscoreToAllFieldScores mfs (int64_of_float zscoreStr))
  end.

Definition GetScoreForField (mfs : MultiFieldSet) (r : redis)
    (fieldName member : string) : outcome Z :=
  match GetFieldByName mfs fieldName with
  | None => Err (ErrFieldNotFound fieldName)
  | Some f =>
      match ZScore r (name mfs) member with
      | ReplyNil => Ok (defaultScore f)
      | ReplyErr msg => Err (ErrRedis msg)
      | ReplyScore zscoreStr =>
          let fieldVal := extractFieldScore f (Some (int64_of_float zscoreStr)) in
          Ok (if Sort (toField f) =? Descending then maxAbsolute f - fieldVal
              else fieldVal)
      end
  end.

(** [ResetMember]: [mfs.defaultZScore.Int64()] dereferences the pointer, a
    nil one panics. *)
Definition ResetMember (mfs : MultiFieldSet) (r : redis) (member : string)
    : outcome unit * redis :=
  match defaultZScore mfs with
  | None => (Panic, r)
  | Some z =>
      match ZAdd r (name mfs) member (float64_of_int64 (Int64 z)) with
      | (Some msg, r') => (Err (ErrRedis msg), r')
      | (None, r') => (Ok tt, r')
      end
  end.

(** [MaxScoreWithFields]: the body of its loop, the loop, the function. *)
Definition limitField (mfs : MultiFieldSet) (scores : list Z)
    (fieldName : string) (limit : float64) : outcome (list Z) :=
  match GetFieldByName mfs fieldName with
  | None => Err (ErrFieldNotFound fieldName)
  | Some f =>
      let inc := int64_of_float limit * multiplier f in
      match scores !! position f with
      | None => Panic
      | Some _ => Ok (<[position f := defaultScore f + inc]> scores)
      end
  end.

Fixpoint applyLimits (mfs : MultiFieldSet) (scores : list Z)
    (limits : list (string * float64)) : outcome (list Z) :=
  match limits with
  | [] => Ok scores
  | (fieldName, limit) :: rest =>
      scores' ← limitField mfs scores fieldName limit;
      applyLimits mfs scores' rest
  end.

Definition MaxScoreWithFields (mfs : MultiFieldSet)
    (limits : list (string * float64)) : outcome Z :=
  scores ← applyLimits mfs (map defaultScore (fields mfs)) limits;
  scoresToZScore mfs scores.

(** [CalculateScoresFromZScore]: the map is filled field by field, a later
    field of the same name overwrites an earlier one. *)
Definition CalculateScoresFromZScore (mfs : MultiFieldSet) (zscore : option Z)
    : gmap string Z :=
  foldl (fun result f =>
           let fieldVal := extractFieldScore f zscore in
           let fieldVal := if Sort (toField f) =? Descending
                           then maxAbsolute f - fieldVal else fieldVal in
           <[Name (toField f) := fieldVal]> result)
        ∅ (fields mfs).

(** *** The example GameLeaderboard *)

Record GameLeaderboard : Type := { mfs : MultiFieldSet }.

Definition gameFields : list Field :=
  [ {| Name := "points"; Sort := Descending; MaxValue := Finite 1000000 0;
       UpdateMode := Incremental |};
    {| Name := "wins"; Sort := Descending; MaxValue := Finite 10000 0;
       UpdateMode := Incremental |};
    {| Name := "playtime"; Sort := Descending; MaxValue := Finite 1000000 0;
       UpdateMode := Incremental |} ].

Definition NewGameLeaderboard (c : option UniversalClient) (n : string)
    : outcome GameLeaderboard :=
  set ← New {| optName := n; optFields := gameFields; optClient := c |};
  Ok {| mfs := set |}.

(** [_, err := gl.mfs.IncreaseScore(...); return err] *)
Definition errorOnly {A} (res : outcome A * redis) : outcome unit * redis :=
  (fst res ≫= fun _ => Ok tt, snd res).

Definition AddPoints (gl : GameLeaderboard) (r : redis) (player : string)
    (points : float64) : outcome unit * redis :=
  errorOnly (IncreaseScore (mfs gl) r [("points", points)] player).

Definition AddWin (gl : GameLeaderboard) (r : redis) (player : string)
    : outcome unit * redis :=
  errorOnly (IncreaseScore (mfs gl) r [("wins", Finite 1 0)] player).

Definition AddPlaytime (gl : GameLeaderboard) (r : redis) (player : string)
    (minutes : float64) : outcome unit * redis :=
  errorOnly (IncreaseScore (mfs gl) r [("playtime", minutes)] player).

(** *** Notions used to state the properties *)

(** The width of the mask [setIndex] leaves in a field. *)
Definition maskWidth (f : multiField) : Z := if isMain f then 53 else bits f.

(** A value fits a field when the range check of [IncreaseScore] accepts it. *)
Definition inRange (f : multiField) (v : Z) : Prop := 0 ≤ v ≤ maxAbsolute f.

(** The sum of the widths of all fields. *)
Definition totalWidth (fs : list multiField) : Z :=
  foldr (fun f acc => bits f + acc) 0 fs.

(** What [newMultiField] returns for [f]. *)
Definition freshField (f : Field) : multiField :=
  let main := IsInf1 (MaxValue f) in
  let w := if main then 53 else BitCount (MaxValue f) in
  {| toField := f; bits := w; position := 0%nat; shiftValue := 0;
     mask := Z.ones w; isMain := main;
     maxAbsolute := if main then 2 ^ 53 - 1 else Z.ones w;
     multiplier := if Sort f =? Descending then -1 else 1 |}.

(** The slot of a field after [setIndex], and the layout of a list of fields
    whose widths add up to [total]. *)
Record slotOk (f : multiField) : Prop := {
  slot_shift : 0 ≤ shiftValue f;
  slot_bits : 0 ≤ bits f ≤ 64;
  slot_max : maxAbsolute f = Z.ones (bits f);
  slot_mask : mask f = Z.shiftl (Z.ones (maskWidth f)) (shiftValue f);
  slot_main : isMain f = true → shiftValue f + bits f = 53;
  slot_alloc : bits f ≠ 0 → shiftValue f ≤ maxShift
}.

Inductive layout : list multiField → Z → Prop :=
  | layout_nil : layout [] 0
  | layout_cons f rest t :
      layout rest t → slotOk f → shiftValue f = t →
      layout (f :: rest) (t + bits f).

(** The scalar of the values [vs], one per field: the sum that
    [scoresToZScore] computes when no shift fails. *)
Fixpoint packSum (fs : list multiField) (vs : list Z) : Z :=
  match fs, vs with
  | f :: fs', v :: vs' => Z.shiftl v (shiftValue f) + packSum fs' vs'
  | _, _ => 0
  end.

(** [Lsh v (shiftValue f)] allocates within the run time's limit. *)
Definition shiftable (f : multiField) (v : Z) : Prop :=
  v = 0 ∨ shiftValue f ≤ maxShift.

(** The packed value of the logical value [a] of a field, as [IncreaseScore]
    computes it from the field's default. *)
Definition packed (f : multiField) (a : Z) : Z := defaultScore f + a * multiplier f.

(** The new packed value that one iteration of the update loop computes for
    field [f] from its current value, before the range check; [None] for
    an unknown update type. *)
Definition newPackedValue (f : multiField) (current : Z) (incValue : float64) : option Z :=
  let inc := int64_of_float incValue * multiplier f in
  if UpdateMode (toField f) =? Incremental then Some (current + inc)
  else if UpdateMode (toField f) =? Replace then Some (defaultScore f + inc)
  else None.

(** The scores [IncreaseScore] starts from: the defaults for an absent
    member, the unpacked current score for an existing one; [None] when the
    read fails. *)
Definition startScores (mfs : MultiFieldSet) (r : redis) (member : string) : option (list Z) :=
  match ZScore r (name mfs) member with
  | ReplyNil => Some (map defaultScore (fields mfs))
  | ReplyErr _ => None
  | ReplyScore currentZScore =>
      Some (getFieldScores mfs (Some (int64_of_float currentZScore)))
  end.

(** Positions are indices into [fields]. *)
Definition positionsOk (mfs : MultiFieldSet) : Prop :=
  ∀ (k : nat) (mf : multiField), fields mfs !! k = Some mf → position mf = k.

(** The value of [totalShifts] that the second loop of [New] reaches on the
    declarations [fs] when no unbounded field runs out of headroom: an
    unbounded field fills the scalar up to 53 bits. *)
Fixpoint plannedWidth (fs : list Field) : Z :=
  match fs with
  | [] => 0
  | f :: rest =>
      if IsInf1 (MaxValue f) then 53 else plannedWidth rest + BitCount (MaxValue f)
  end.

(** Every unbounded field is followed by at most 53 bits of fields. *)
Fixpoint headroomOk (fs : list Field) : bool :=
  match fs with
  | [] => true
  | f :: rest =>
      headroomOk rest &&
      (if IsInf1 (MaxValue f) then plannedWidth rest <=? 53 else true)
  end.

(** The declarations are few enough for every shift to stay below the
    allocation limit of [Lsh] (no slice of 2^45 fields fits in memory). *)
Definition feasibleLength (fs : list Field) : Prop :=
  64 * Z.of_nat (length fs) ≤ maxShift.

(** Sample declarations. *)
Definition withFields (fs : list Field) : MultiFieldSetOptions :=
  {| optName := "leaderboard"; optFields := fs; optClient := Some ClientHandle |}.

Definition killsDeaths : MultiFieldSetOptions :=
  withFields
    [ {| Name := "kills"; Sort := Descending; MaxValue := Finite 10000 0;
         UpdateMode := Incremental |};
      {| Name := "deaths"; Sort := Ascending; MaxValue := Finite 10000 0;
         UpdateMode := Incremental |} ].

Definition boundedField (n : string) (maxValue : Z) : Field :=
  {| Name := n; Sort := Ascending; MaxValue := Finite maxValue 0;
     UpdateMode := Incremental |}.

Definition unboundedField (n : string) : Field :=
  {| Name := n; Sort := Ascending; MaxValue := Inf false;
     UpdateMode := Incremental |}.

(** An unbounded field declared between two 8-bit fields. *)
Definition mainInTheMiddle : MultiFieldSetOptions :=
  withFields [boundedField "a" 255; unboundedField "m"; boundedField "b" 255].

(** An unbounded field declared before an 8-bit field. *)
Definition mainFirst : MultiFieldSetOptions :=
  withFields [unboundedField "m"; boundedField "b" 255].

(** A field of update type Replace before an 8-bit field. *)
Definition levelThenBonus : MultiFieldSetOptions :=
  withFields
    [ {| Name := "level"; Sort := Descending; MaxValue := Finite 100 0;
         UpdateMode := Replace |};
      boundedField "bonus" 255 ].

(** The codecs that [New] builds from [killsDeaths] and [levelThenBonus]. *)
Definition killsField : multiField :=
  {| toField := {| Name := "kills"; Sort := Descending;
                   MaxValue := Finite 10000 0; UpdateMode := Incremental |};
     bits := 14; position := 0; shiftValue := 14; mask := 268419072;
     isMain := false; maxAbsolute := 16383; multiplier := -1 |}.

Definition deathsField : multiField :=
  {| toField := {| Name := "deaths"; Sort := Ascending;
                   MaxValue := Finite 10000 0; UpdateMode := Incremental |};
     bits := 14; position := 1; shiftValue := 0; mask := 16383;
     isMain := false; maxAbsolute := 16383; multiplier := 1 |}.

Definition killsDeathsSet : MultiFieldSet :=
  {| fields := [killsField; deathsField]; name := "leaderboard";
     client := ClientHandle; defaultZScore := Some 268419072 |}.

Definition levelField : multiField :=
  {| toField := {| Name := "level"; Sort := Descending;
                   MaxValue := Finite 100 0; UpdateMode := Replace |};
     bits := 7; position := 0; shiftValue := 8; mask := 32512;
     isMain := false; maxAbsolute := 127; multiplier := -1 |}.

Definition bonusField : multiField :=
  {| toField := boundedField "bonus" 255;
     bits := 8; position := 1; shiftValue := 0; mask := 255;
     isMain := false; maxAbsolute := 255; multiplier := 1 |}.

Definition levelThenBonusSet : MultiFieldSet :=
  {| fields := [levelField; bonusField]; name := "leaderboard";
     client := ClientHandle; defaultZScore := Some 32512 |}.

(** A negative maximum; two 41-bit fields; one 61-bit field; an unbounded
    field declared before two 32-bit fields. *)
Definition negativeMax : MultiFieldSetOptions :=
  withFields [boundedField "x" (-5)].

Definition tooWide : MultiFieldSetOptions :=
  withFields [boundedField "a" (2 ^ 40); boundedField "b" (2 ^ 40)].

Definition widePoints : MultiFieldSetOptions :=
  withFields [boundedField "points" (2 ^ 60)].


Definition emptyStore : redis :=
  {| zsets := ∅; readFault := None; writeFault := None |}.

(** The store in which the set "leaderboard" holds [member] with [score]. *)
Definition storeWith (member : string) (score : float64) : redis :=
  {| zsets := {[ "leaderboard" := {[ member := score ]} ]};
     readFault := None; writeFault := None |}.

(** Lexicographic order on score vectors, first component most significant. *)
Fixpoint lexLt (vs ws : list Z) : Prop :=
  match vs, ws with
  | v :: vs', w :: ws' => v < w ∨ (v = w ∧ lexLt vs' ws')
  | _, _ => False
  end.

(** The sum of the widths [BitCount] gives to fixed-width declarations. *)
Definition declaredWidth (ds : list Field) : Z :=
  foldr (fun d acc => BitCount (MaxValue d) + acc) 0 ds.

(** The value shown for the packed value [v] of field [f]: the reversal that
    [zscoreToAllFieldScores] and [GetScoreForField] apply to descending
    fields. *)
Definition logical (f : multiField) (v : Z) : Z :=
  if Sort (toField f) =? Descending then maxAbsolute f - v else v.

(** The codec that [NewGameLeaderboard] builds for the name [n]. *)
Definition gameSet (n : string) (c : UniversalClient) : MultiFieldSet :=
  {| fields :=
       [ {| toField := {| Name := "points"; Sort := Descending;
                          MaxValue := Finite 1000000 0; UpdateMode := Incremental |};
            bits := 20; position := 0; shiftValue := 34;
            mask := 18014381329612800; isMain := false; maxAbsolute := 1048575;
            multiplier := -1 |};
         {| toField := {| Name := "wins"; Sort := Descending;
                          MaxValue := Finite 10000 0; UpdateMode := Incremental |};
            bits := 14; position := 1; shiftValue := 20;
            mask := 17178820608; isMain := false; maxAbsolute := 16383;
            multiplier := -1 |};
         {| toField := {| Name := "playtime"; Sort := Descending;
                          MaxValue := Finite 1000000 0; UpdateMode := Incremental |};
            bits := 20; position := 2; shiftValue := 0;
            mask := 1048575; isMain := false; maxAbsolute := 1048575;
            multiplier := -1 |} ];
     name := n; client := c; defaultZScore := Some 18014398509481983 |}.

(** A field whose declared maximum is one half. *)
Definition halfPoint : MultiFieldSetOptions :=
  withFields
    [ {| Name := "half"; Sort := Ascending; MaxValue := Finite 1 (-1);
         UpdateMode := Incremental |} ].

(** The score that [IncreaseScore] and [ResetMember] write for the packed
    scalar [z]: [float64(z.Int64())]. *)
Definition storedScore (z : Z) : float64 := float64_of_int64 (Int64 z).

(** The order in which a sorted set keeps its scores: the order of float64
    values (no NaN is below or above anything). *)
Definition float_ltb (x y : float64) : bool :=
  match x, y with
  | NaN, _ | _, NaN => false
  | Inf nx, Inf ny => nx && negb ny
  | Inf nx, Finite _ _ => nx
  | Finite _ _, Inf ny => negb ny
  | Finite m1 e1, Finite m2 e2 =>
      let e := Z.min e1 e2 in
      m1 * 2 ^ (e1 - e) <? m2 * 2 ^ (e2 - e)
  end.

(** A Descending field of 63 bits before an Ascending field of 1 bit. *)
Definition wideOrder : MultiFieldSetOptions :=
  withFields
    [ {| Name := "A"; Sort := Descending; MaxValue := Finite (2 ^ 62) 0;
         UpdateMode := Incremental |};
      boundedField "B" 1 ].


(** What construction keeps of the declaration [f] in its field [mf]. *)
Definition fieldOf (f : Field) (mf : multiField) : Prop :=
  toField mf = f ∧ isMain mf = IsInf1 (MaxValue f) ∧
  multiplier mf = (if Sort f =? Descending then -1 else 1) ∧
  (IsInf1 (MaxValue f) = false → bits mf = BitCount (MaxValue f)).

(** ** Proofs *)

(** *** The outcome monad *)

Lemma bind_Ok {A B} (c : outcome A) (k : A → outcome B) (b : B) :
  (c ≫= k) = Ok b → ∃ a, c = Ok a ∧ k a = Ok b.
Proof.
  destruct c as [a | e |]; unfold mbind, outcome_bind; intros H;
    [exists a; split; done | done | done].
Qed.


(** *** Arithmetic of the machine operations *)

Lemma pow2_pos (n : Z) : 0 ≤ n → 0 < 2 ^ n.
Proof. intros. apply Z.pow_pos_nonneg; lia. Qed.

Lemma ones_nonneg (n : Z) : 0 ≤ n → 0 ≤ Z.ones n.
Proof. intros Hn. rewrite Z.ones_equiv. pose proof (pow2_pos n Hn). lia. Qed.

Lemma ones_eq_0 (n : Z) : 0 ≤ n → Z.ones n = 0 → n = 0.
Proof.
  intros Hn H. rewrite Z.ones_equiv in H.
  destruct (decide (n = 0)) as [|Hne]; [done|].
  assert (2 ^ 1 ≤ 2 ^ n) by (apply Z.pow_le_mono_r; lia).
  change (2 ^ 1) with 2 in *. lia.
Qed.

Lemma Lsh_Ok (x n r : Z) : Lsh x n = Ok r → r = Z.shiftl x n.
Proof.
  unfold Lsh. destruct (x =? 0) eqn:Hx.
  - apply Z.eqb_eq in Hx. subst x. rewrite Z.shiftl_0_l. congruence.
  - destruct (maxShift <? n); congruence.
Qed.

Lemma Lsh_Ok_bound (x n r : Z) : Lsh x n = Ok r → x ≠ 0 → n ≤ maxShift.
Proof.
  unfold Lsh. intros H Hx. apply Z.eqb_neq in Hx. rewrite Hx in H.
  destruct (maxShift <? n) eqn:Hn; [done|]. apply Z.ltb_ge in Hn. done.
Qed.

Lemma Lsh_total (x n : Z) : x = 0 ∨ n ≤ maxShift → Lsh x n = Ok (Z.shiftl x n).
Proof.
  unfold Lsh. intros [-> | Hn].
  - by rewrite Z.shiftl_0_l.
  - destruct (x =? 0) eqn:Hx.
    + apply Z.eqb_eq in Hx. subst x. by rewrite Z.shiftl_0_l.
    + apply Z.ltb_ge in Hn. by rewrite Hn.
Qed.


Lemma MaxBin_Ok (n r : Z) : 0 ≤ n → MaxBin n = Ok r → r = Z.ones n.
Proof.
  unfold MaxBin. intros Hn. destruct (n =? 0) eqn:H0.
  - apply Z.eqb_eq in H0. subst n. intros [= <-]. done.
  - intros H. apply bind_Ok in H as (x & Hx & [= <-]).
    apply Lsh_Ok in Hx. subst x.
    rewrite Z.ones_equiv, Z.shiftl_1_l. lia.
Qed.

Lemma MaxBin_Ok_bound (n r : Z) : MaxBin n = Ok r → n = 0 ∨ n ≤ maxShift.
Proof.
  unfold MaxBin. destruct (n =? 0) eqn:H0.
  - apply Z.eqb_eq in H0. by left.
  - intros H. apply bind_Ok in H as (x & Hx & _).
    right. by apply (Lsh_Ok_bound 1 n x).
Qed.

Lemma MaxBin_total (n : Z) : 0 ≤ n ≤ maxShift → MaxBin n = Ok (Z.ones n).
Proof.
  intros Hn. unfold MaxBin. destruct (n =? 0) eqn:H0.
  - apply Z.eqb_eq in H0. by subst n.
  - rewrite Lsh_total by lia. simpl.
    rewrite Z.ones_equiv, Z.shiftl_1_l. f_equal; lia.
Qed.


Lemma Len64_bound (x : Z) : 0 ≤ x < 2 ^ 64 → 0 ≤ Len64 x ≤ 64.
Proof.
  intros Hx. unfold Len64. destruct (x =? 0) eqn:H0; [lia|].
  apply Z.eqb_neq in H0.
  pose proof (Z.log2_nonneg x).
  assert (Z.log2 x < 64) by (apply Z.log2_lt_pow2; lia). lia.
Qed.

Lemma uint64_of_float_bound (n : float64) : 0 ≤ uint64_of_float n < 2 ^ 64.
Proof.
  unfold uint64_of_float, wrap_uint64.
  destruct n as [| b | m e]; try (apply Z.mod_pos_bound; lia).
  destruct ((0 <=? truncate m e) && (truncate m e <? 2 ^ 64)) eqn:H.
  - apply andb_true_iff in H as [H1 H2].
    apply Z.leb_le in H1. apply Z.ltb_lt in H2. lia.
  - apply Z.mod_pos_bound; lia.
Qed.

Lemma BitCount_bound (n : float64) : 0 ≤ BitCount n ≤ 64.
Proof.
  unfold BitCount. destruct (float_le0 n); [lia|].
  apply Len64_bound, uint64_of_float_bound.
Qed.

(** *** Construction: [newMultiField], [setIndex], [New] *)

Lemma maxShift_val : maxShift = 2251799813685248.
Proof. reflexivity. Qed.

Lemma pow64_val : 2 ^ 64 = 18446744073709551616.
Proof. reflexivity. Qed.

Lemma wrap_uint64_small (z : Z) : 0 ≤ z < 2 ^ 64 → wrap_uint64 z = z.
Proof. intros. unfold wrap_uint64. by apply Z.mod_small. Qed.

Lemma wrap_uint64_neg (z : Z) : - 2 ^ 64 ≤ z < 0 → wrap_uint64 z = z + 2 ^ 64.
Proof.
  intros. unfold wrap_uint64.
  rewrite <- (Z_mod_plus_full z 1 (2 ^ 64)), Z.mul_1_l.
  apply Z.mod_small. lia.
Qed.

Lemma newMultiField_fresh (f : Field) : newMultiField f = Ok (freshField f).
Proof.
  unfold newMultiField, freshField.
  set (w := if IsInf1 (MaxValue f) then 53 else BitCount (MaxValue f)).
  assert (0 ≤ w ≤ 64) as Hw.
  { subst w. destruct (IsInf1 (MaxValue f)); [lia | apply BitCount_bound]. }
  rewrite MaxBin_total by (rewrite maxShift_val; lia). reflexivity.
Qed.

Lemma newMultiFields_fresh (fs : list Field) :
  newMultiFields fs = Ok (map freshField fs).
Proof.
  induction fs as [|f fs IH]; [done|].
  simpl. rewrite newMultiField_fresh, IH. reflexivity.
Qed.

Lemma setIndex_fresh (i : nat) (t : Z) (f : Field) (mf : multiField) :
  0 ≤ t →
  setIndex i t (freshField f) = Ok mf →
  slotOk mf ∧ shiftValue mf = t ∧ position mf = i ∧ fieldOf f mf.
Proof.
  intros Ht H. unfold setIndex in H.
  apply bind_Ok in H as (mask1 & Hm1 & H).
  pose proof (Lsh_Ok _ _ _ Hm1) as ->.
  destruct (isMain (freshField f)) eqn:Hmain; simpl in Hmain.
  - (* the unbounded field *)
    apply bind_Ok in H as (mask2 & Hm2 & H).
    apply bind_Ok in H as (maxAbs & Hmax & [= <-]).
    simpl in *. rewrite Hmain in *.
    assert (t ≤ maxShift) as Htm.
    { apply (Lsh_Ok_bound _ _ _ Hm1). done. }
    assert (mask2 = Z.shiftl (Z.ones 53) t) as ->.
    { destruct (53 <? BitLen (Z.shiftl (Z.ones 53) t)).
      - change (MaxBin 53) with (Ok (Z.ones 53)) in Hm2.
        by apply Lsh_Ok in Hm2.
      - congruence. }
    assert (t ≤ 53) as Ht53.
    { apply MaxBin_Ok_bound in Hmax.
      destruct (decide (t ≤ 53)) as [|Hgt]; [done|].
      rewrite wrap_uint64_neg in Hmax; rewrite maxShift_val, ?pow64_val in *; lia. }
    assert (wrap_uint64 (53 - t) = 53 - t) as Hw.
    { apply wrap_uint64_small. rewrite pow64_val. lia. }
    rewrite Hw in *. apply MaxBin_Ok in Hmax as ->; [|lia].
    split; [|unfold fieldOf; simpl; rewrite Hmain; repeat split; congruence].
    constructor; simpl; unfold maskWidth; simpl; try rewrite Hmain; try done; lia.
  - (* a fixed-width field *)
    injection H as <-. simpl in *. rewrite Hmain in *.
    pose proof (BitCount_bound (MaxValue f)) as Hb.
    split; [|unfold fieldOf; simpl; rewrite Hmain; repeat split; congruence].
    constructor; simpl; unfold maskWidth; simpl; try rewrite Hmain; try done.
    intros Hne. apply (Lsh_Ok_bound _ _ _ Hm1).
    intros H0. apply ones_eq_0 in H0; lia.
Qed.

Lemma layout_total_bound (fs : list multiField) (t : Z) :
  layout fs t → 0 ≤ t ≤ maxShift + 64.
Proof.
  induction 1 as [|f rest t Hl IH Hs Ht].
  - rewrite maxShift_val. lia.
  - destruct Hs as [? ? _ _ _ Ha].
    destruct (decide (bits f = 0)) as [->|Hne]; [lia|].
    specialize (Ha Hne). lia.
Qed.

Lemma assignIndices_layout (fs : list Field) :
  ∀ (i : nat) (mfs : list multiField) (t : Z),
    assignIndices i (map freshField fs) = Ok (mfs, t) →
    layout mfs t ∧ Forall2 fieldOf fs mfs ∧
    ∀ (k : nat) (mf : multiField), mfs !! k = Some mf → position mf = (i + k)%nat.
Proof.
  induction fs as [|f fs IH]; intros i mfs t H; simpl in H.
  - injection H as <- <-. repeat split; [constructor | constructor |].
    intros k mf Hk. by rewrite lookup_nil in Hk.
  - apply bind_Ok in H as ([rest t0] & Hrest & H).
    apply bind_Ok in H as (mf' & Hset & [= <- <-]).
    apply IH in Hrest as (Hl & Hf & Hp).
    pose proof (layout_total_bound _ _ Hl) as Hb.
    apply setIndex_fresh in Hset as (Hslot & Hshift & Hpos & Hof); [|lia].
    assert (t0 + bits mf' < 2 ^ 64) as Hlt.
    { destruct Hslot as [_ ? _ _ _ Ha].
      rewrite pow64_val. rewrite maxShift_val in *.
      destruct (decide (bits mf' = 0)) as [->|Hne]; [lia|].
      specialize (Ha Hne). lia. }
    assert (wrap_uint64 (t0 + bits mf') = t0 + bits mf') as ->.
    { apply wrap_uint64_small. destruct Hslot. lia. }
    repeat split.
    + by constructor.
    + by constructor.
    + intros [|k] mf Hk; simpl in Hk.
      * injection Hk as <-. lia.
      * apply Hp in Hk. lia.
Qed.

(** *** The layout of a constructed codec *)

Lemma layout_lookup (fs : list multiField) (t : Z) :
  layout fs t →
  ∀ (k : nat) (f : multiField), fs !! k = Some f →
    slotOk f ∧ shiftValue f + bits f ≤ t.
Proof.
  induction 1 as [|f0 rest t0 Hl IH Hs Ht]; intros k f Hk.
  - by rewrite lookup_nil in Hk.
  - destruct k as [|k]; simpl in Hk.
    + injection Hk as <-. split; [done | lia].
    + apply IH in Hk as [? ?]. destruct Hs. split; [done | lia].
Qed.

Lemma layout_order (fs : list multiField) (t : Z) :
  layout fs t →
  ∀ (j k : nat) (g f : multiField),
    (j < k)%nat → fs !! j = Some g → fs !! k = Some f →
    shiftValue f + bits f ≤ shiftValue g.
Proof.
  induction 1 as [|f0 rest t0 Hl IH Hs Ht]; intros j k g f Hjk Hj Hk.
  - by rewrite lookup_nil in Hj.
  - destruct k as [|k]; [lia|]. simpl in Hk.
    destruct j as [|j]; simpl in Hj.
    + injection Hj as <-. apply (layout_lookup _ _ Hl) in Hk as [_ ?]. lia.
    + apply (IH j k); [lia | done | done].
Qed.

Lemma layout_totalWidth (fs : list multiField) (t : Z) :
  layout fs t → totalWidth fs = t.
Proof. induction 1 as [|f0 rest t0 Hl IH Hs Ht]; simpl; [done | lia]. Qed.

Lemma layout_last (fs : list multiField) (t : Z) (f : multiField) :
  layout fs t → last fs = Some f → shiftValue f = 0.
Proof.
  induction 1 as [|f0 rest t0 Hl IH Hs Ht]; [done|].
  destruct rest as [|f1 rest].
  - intros [= <-]. by inversion Hl; subst.
  - intros Hlast. apply IH. by rewrite last_cons_cons in Hlast.
Qed.

(** A main field in a codec of at most 53 bits has only empty slots above. *)
Lemma layout_above_main (fs : list multiField) (t : Z) :
  layout fs t → t ≤ 53 →
  ∀ (j k : nat) (g f : multiField),
    (j < k)%nat → fs !! j = Some g → fs !! k = Some f → isMain f = true →
    bits g = 0.
Proof.
  intros Hl Ht j k g f Hjk Hj Hk Hmain.
  pose proof (layout_order _ _ Hl j k g f Hjk Hj Hk) as Ho.
  apply (layout_lookup _ _ Hl) in Hj as [Hg ?].
  apply (layout_lookup _ _ Hl) in Hk as [Hf ?].
  apply (slot_main _ Hf) in Hmain. destruct Hg. lia.
Qed.

Lemma inRange_shiftable (f : multiField) (v : Z) :
  slotOk f → inRange f v → shiftable f v.
Proof.
  intros Hs [Hv0 Hv]. unfold shiftable.
  destruct (decide (v = 0)) as [|Hne]; [by left | right].
  apply (slot_alloc _ Hs). intros Hb.
  rewrite (slot_max _ Hs), Hb in Hv. change (Z.ones 0) with 0 in Hv. lia.
Qed.

Lemma inRange_defaultScore (f : multiField) :
  slotOk f → inRange f (defaultScore f).
Proof.
  intros Hs. unfold inRange, defaultScore.
  pose proof (ones_nonneg (bits f)) as Ho. destruct Hs as [_ ? Hm _ _ _].
  rewrite Hm. destruct (Sort (toField f) =? Descending); lia.
Qed.

Lemma inRange_empty_slot (f : multiField) (v : Z) :
  slotOk f → bits f = 0 → inRange f v → v = 0.
Proof.
  intros Hs Hb [? Hv]. rewrite (slot_max _ Hs), Hb in Hv. change (Z.ones 0) with 0 in Hv. lia.
Qed.

Lemma inRange_all_shiftable (fs : list multiField) (t : Z) (vs : list Z) :
  layout fs t → Forall2 inRange fs vs → Forall2 shiftable fs vs.
Proof.
  intros Hl Hall. apply Forall2_same_length_lookup in Hall as [Hlen Hall].
  apply Forall2_same_length_lookup. split; [done|].
  intros k f v Hk Hv. apply (layout_lookup _ _ Hl) in Hk as Hs.
  apply inRange_shiftable; [apply Hs | by apply (Hall k)].
Qed.

(** *** Packing and unpacking *)

Lemma scoresToZScore_from_packSum (vs : list Z) :
  ∀ (fs : list multiField) (i : nat) (zscore : Z),
    Forall2 shiftable (drop i fs) vs →
    scoresToZScore_from fs i vs zscore = Ok (zscore + packSum (drop i fs) vs).
Proof.
  induction vs as [|v vs IH]; intros fs i zscore Hall.
  - inversion Hall as [Hd|]. simpl. f_equal. lia.
  - inversion Hall as [|f ? rest ? Hv Hrest Hd]; subst.
    assert (fs !! i = Some f) as Hi.
    { rewrite <- (Nat.add_0_r i), <- lookup_drop, <- Hd. done. }
    assert (drop (S i) fs = rest) as Hr.
    { rewrite (drop_S _ _ _ Hi) in Hd. by injection Hd. }
    simpl. rewrite Hi. rewrite Lsh_total by exact Hv. simpl.
    rewrite IH by (by rewrite Hr). rewrite Hr. f_equal. lia.
Qed.

Lemma scoresToZScore_packSum (mfs : MultiFieldSet) (vs : list Z) :
  Forall2 shiftable (fields mfs) vs →
  scoresToZScore mfs vs = Ok (packSum (fields mfs) vs).
Proof.
  intros H. unfold scoresToZScore.
  by rewrite scoresToZScore_from_packSum; rewrite drop_0.
Qed.

(** Masking with [w] ones at offset [s] and shifting back is a division
    followed by a remainder. *)
Lemma extract_div_mod (z w s : Z) :
  0 ≤ s → 0 ≤ w →
  Z.shiftr (Z.land z (Z.shiftl (Z.ones w) s)) s = (z / 2 ^ s) mod 2 ^ w.
Proof.
  intros Hs Hw.
  rewrite Z.shiftr_land, Z.shiftr_shiftl_l by lia.
  rewrite Z.sub_diag, Z.shiftl_0_r, Z.land_ones, Z.shiftr_div_pow2 by lia.
  reflexivity.
Qed.

Lemma extractFieldScore_div_mod (f : multiField) (z : Z) :
  slotOk f →
  extractFieldScore f (Some z) = (z / 2 ^ shiftValue f) mod 2 ^ maskWidth f.
Proof.
  intros Hs. unfold extractFieldScore. rewrite (slot_mask _ Hs).
  apply extract_div_mod; [apply Hs|].
  unfold maskWidth. destruct (isMain f); [lia | apply Hs].
Qed.

(** Bits at or above [s + w] do not reach a slot of width [w] at [s]. *)
Lemma high_part_invisible (x y s w t : Z) :
  0 ≤ s → 0 ≤ w → s + w ≤ t →
  ((x * 2 ^ t + y) / 2 ^ s) mod 2 ^ w = (y / 2 ^ s) mod 2 ^ w.
Proof.
  intros Hs Hw Ht.
  pose proof (pow2_pos s Hs). pose proof (pow2_pos w Hw).
  replace (x * 2 ^ t + y) with (y + (x * 2 ^ (t - s - w) * 2 ^ w) * 2 ^ s).
  - rewrite Z.div_add by lia. apply Z_mod_plus_full.
  - replace t with ((t - s - w) + w + s) at 2 by lia.
    rewrite !Z.pow_add_r by lia. ring.
Qed.

Lemma packSum_bound (fs : list multiField) (t : Z) :
  layout fs t →
  ∀ vs : list Z, Forall2 inRange fs vs → 0 ≤ packSum fs vs < 2 ^ t.
Proof.
  induction 1 as [|f rest t Hl IH Hs Ht]; intros vs Hall.
  - inversion Hall. simpl. lia.
  - inversion Hall as [|? v ? vs' [Hv0 Hv] Hrest]; subst. simpl.
    specialize (IH vs' Hrest).
    pose proof (layout_total_bound _ _ Hl) as [Ht0 _].
    destruct Hs as [_ [Hb _] Hmax _ _ _].
    rewrite Hmax, Z.ones_equiv in Hv.
    rewrite Z.shiftl_mul_pow2, Z.pow_add_r by lia.
    pose proof (pow2_pos (shiftValue f) Ht0).
    pose proof (pow2_pos (bits f) Hb). nia.
Qed.

Lemma maskWidth_ge_bits (f : multiField) : slotOk f → 0 ≤ bits f ≤ maskWidth f.
Proof.
  intros Hs. unfold maskWidth. pose proof (slot_bits _ Hs).
  pose proof (slot_shift _ Hs). pose proof (slot_main _ Hs).
  destruct (isMain f); lia.
Qed.

(** Unpacking the packed scalar gives back the value of a field, when the
    field has a fixed width or nothing is stored above it. *)
Lemma roundtrip_packSum (fs : list multiField) (t : Z) :
  layout fs t →
  ∀ (vs : list Z) (k : nat) (f : multiField) (v : Z),
    Forall2 inRange fs vs → fs !! k = Some f → vs !! k = Some v →
    (isMain f = false ∨ ∀ (j : nat) (u : Z), (j < k)%nat → vs !! j = Some u → u = 0) →
    extractFieldScore f (Some (packSum fs vs)) = v.
Proof.
  induction 1 as [|f0 rest t0 Hl IH Hs Ht]; intros vs k f v Hall Hk Hv Hcond.
  - by rewrite lookup_nil in Hk.
  - inversion Hall as [|? v0 ? vs' Hv0 Hrest]; subst. simpl packSum.
    pose proof (slot_shift _ Hs) as Hs0.
    destruct k as [|k]; simpl in Hk, Hv.
    + injection Hk as <-. injection Hv as <-.
      rewrite extractFieldScore_div_mod by done.
      pose proof (packSum_bound _ _ Hl vs' Hrest) as Hb.
      pose proof (pow2_pos _ Hs0).
      rewrite Z.shiftl_mul_pow2, Z.div_add_l, (Z.div_small (packSum rest vs')) by lia.
      rewrite Z.add_0_r. apply Z.mod_small.
      destruct Hv0 as [? Hv0]. rewrite (slot_max _ Hs), Z.ones_equiv in Hv0.
      pose proof (maskWidth_ge_bits _ Hs) as Hw.
      assert (2 ^ bits f0 ≤ 2 ^ maskWidth f0) by (apply Z.pow_le_mono_r; lia).
      lia.
    + pose proof (layout_lookup _ _ Hl k f Hk) as [Hf Hle].
      specialize (IH vs' k f v Hrest Hk Hv).
      rewrite extractFieldScore_div_mod in * by done.
      destruct Hcond as [Hb | Hz].
      * specialize (IH (or_introl Hb)).
        unfold maskWidth in *. rewrite Hb in *.
        rewrite Z.shiftl_mul_pow2, high_part_invisible; [done | | | | done];
          destruct Hf; lia.
      * assert (v0 = 0) as -> by (apply (Hz 0%nat); [lia | done]).
        rewrite Z.shiftl_0_l, Z.add_0_l. apply IH. right.
        intros j u Hj Hu. apply (Hz (S j)); [lia | done].
Qed.

(** In a codec of at most 53 bits every field round-trips. *)
Lemma roundtrip_safe (fs : list multiField) (t : Z) (vs : list Z) :
  layout fs t → t ≤ 53 → Forall2 inRange fs vs →
  map (fun f => extractFieldScore f (Some (packSum fs vs))) fs = vs.
Proof.
  intros Hl Ht Hall. apply list_eq. intros k.
  rewrite list_lookup_fmap.
  destruct (fs !! k) as [f|] eqn:Hk; simpl.
  - destruct (Forall2_lookup_l _ _ _ _ _ Hall Hk) as (v & Hv & _).
    rewrite Hv. f_equal.
    apply (roundtrip_packSum _ _ Hl vs k f v Hall Hk Hv).
    destruct (isMain f) eqn:Hmain; [right | by left].
    intros j u Hj Hu.
    destruct (Forall2_lookup_r _ _ _ _ _ Hall Hu) as (g & Hg & Hin).
    pose proof (layout_above_main _ _ Hl Ht j k g f Hj Hg Hk Hmain) as Hb.
    apply (layout_lookup _ _ Hl) in Hg as [Hgs _].
    by apply (inRange_empty_slot g).
  - symmetry. apply lookup_ge_None.
    apply lookup_ge_None in Hk. by rewrite <- (Forall2_length _ _ _ Hall).
Qed.

(** Every scalar below 2^53 unpacks to values in range. *)
Lemma extract_inRange (f : multiField) (z : Z) :
  slotOk f → 0 ≤ z < 2 ^ 53 → inRange f (extractFieldScore f (Some z)).
Proof.
  intros Hs Hz. rewrite extractFieldScore_div_mod by done.
  unfold inRange. rewrite (slot_max _ Hs), Z.ones_equiv.
  pose proof (slot_shift _ Hs) as Hs0. pose proof (slot_bits _ Hs) as Hb.
  pose proof (pow2_pos _ Hs0).
  unfold maskWidth. destruct (isMain f) eqn:Hmain.
  - pose proof (slot_main _ Hs Hmain) as Hsum.
    assert (0 ≤ z / 2 ^ shiftValue f) by (apply Z.div_pos; lia).
    assert (z / 2 ^ shiftValue f < 2 ^ bits f).
    { apply Z.div_lt_upper_bound; [lia|].
      rewrite <- Z.pow_add_r, Hsum by lia. lia. }
    assert (2 ^ bits f ≤ 2 ^ 53) by (apply Z.pow_le_mono_r; lia).
    rewrite Z.mod_small by lia.
    generalize dependent (z / 2 ^ shiftValue f). intros; lia.
  - assert (0 < 2 ^ bits f) as Hp by (apply pow2_pos; lia).
    pose proof (Z.mod_pos_bound (z / 2 ^ shiftValue f) (2 ^ bits f) Hp).
    generalize dependent ((z / 2 ^ shiftValue f) mod 2 ^ bits f). intros; lia.
Qed.

(** *** What [New] establishes *)

Lemma New_layout (opts : MultiFieldSetOptions) (mfs : MultiFieldSet) :
  New opts = Ok mfs →
  ∃ t : Z,
    layout (fields mfs) t ∧
    Forall2 fieldOf (optFields opts) (fields mfs) ∧
    (∀ (k : nat) (mf : multiField), fields mfs !! k = Some mf → position mf = k) ∧
    name mfs = optName opts.
Proof.
  unfold New. intros H.
  destruct (bool_decide (optName opts = "")); [done|].
  destruct (bool_decide (length (optFields opts) = 0%nat)); [done|].
  destruct (optClient opts) as [c|]; [|done].
  rewrite newMultiFields_fresh in H. simpl in H.
  apply bind_Ok in H as ([mfs' t] & Hassign & H).
  apply bind_Ok in H as (z & _ & [= <-]). simpl.
  apply assignIndices_layout in Hassign as (Hl & Hf & Hp).
  exists t. repeat split; done.
Qed.

Lemma GetFieldByName_Some (mfs : MultiFieldSet) (n : string) (f : multiField) :
  (∀ (k : nat) (mf : multiField), fields mfs !! k = Some mf → position mf = k) →
  GetFieldByName mfs n = Some f →
  Name (toField f) = n ∧ fields mfs !! position f = Some f.
Proof.
  intros Hp H. unfold GetFieldByName in H.
  apply find_some in H as [Hin Hn].
  apply bool_decide_eq_true in Hn. split; [done|].
  apply list_elem_of_In, list_elem_of_lookup in Hin as [k Hk].
  by rewrite (Hp k f Hk).
Qed.

(** *** Positions (C5) *)

(** C5, as amended: after construction the position of every field is its
    0-based index in declaration order (the order of [fields], which the
    score vectors share); shifts decrease along that order, so position 0
    is the most significant field and the last-declared field sits at
    shift 0. *)
Theorem position_is_declaration_index (opts : MultiFieldSetOptions) (mfs : MultiFieldSet) :
  New opts = Ok mfs →
  length (fields mfs) = length (optFields opts) ∧
  (∀ (k : nat) (f : multiField), fields mfs !! k = Some f →
     position f = k ∧ optFields opts !! k = Some (toField f)) ∧
  (∀ (j k : nat) (g f : multiField),
     (j < k)%nat → fields mfs !! j = Some g → fields mfs !! k = Some f →
     shiftValue f + bits f ≤ shiftValue g) ∧
  (∀ f : multiField, last (fields mfs) = Some f → shiftValue f = 0).
Proof.
  intros H. apply New_layout in H as (t & Hl & Hf & Hp & _).
  split; [symmetry; by apply Forall2_length in Hf|].
  split; [|split].
  - intros k f Hk. split; [by apply Hp|].
    destruct (Forall2_lookup_r _ _ _ _ _ Hf Hk) as (d & Hd & Hof).
    destruct Hof as [<- _]. done.
  - by apply (layout_order _ _ Hl).
  - intros f. by apply (layout_last _ _ _ Hl).
Qed.

(** *** Ordering (C6) *)

(** A scalar below 2^53 is written to the store as itself. *)
Lemma storedScore_exact (z : Z) :
  0 ≤ z < 2 ^ 53 → storedScore z = Finite z 0.
Proof.
  intros Hz. unfold storedScore.
  assert (Int64 z = z) as ->.
  { unfold Int64. destruct (z <? 0) eqn:Hneg; [lia|].
    rewrite Z.abs_eq by lia. unfold wrap_int64.
    rewrite Z.mod_small; lia. }
  unfold float64_of_int64, round53. rewrite Z.abs_eq by lia.
  assert (Z.log2 z + 1 - 53 ≤ 0) as Hk.
  { destruct (decide (z = 0)) as [->|Hne]; [done|].
    assert (Z.log2 z < 53) by (apply Z.log2_lt_pow2; lia). lia. }
  apply Z.leb_le in Hk. rewrite Hk.
  f_equal. destruct z; simpl; lia.
Qed.

(** C6, as amended: with a Descending field A declared first and an
    Ascending field B declared second, A is packed as maxAbsolute - logical
    value, and of two in-range assignments with the same B the one with the
    larger A has the smaller packed scalar; when the codec is at most 53
    bits wide, the scores written to the store for the two scalars,
    float64(z.Int64()), are ordered in the same way. *)
Theorem descending_primary_order (opts : MultiFieldSetOptions) (A B : Field)
    (mfs : MultiFieldSet) :
  optFields opts = [A; B] →
  Sort A = Descending → Sort B = Ascending →
  New opts = Ok mfs →
  ∃ fA fB : multiField,
    fields mfs = [fA; fB] ∧ toField fA = A ∧ toField fB = B ∧
    ∀ aX aY b : Z,
      0 ≤ aY → aY < aX → aX ≤ maxAbsolute fA → inRange fB b →
      packed fA aX = maxAbsolute fA - aX ∧
      packed fB b = b ∧
      ∃ zX zY : Z,
        scoresToZScore mfs [packed fA aX; packed fB b] = Ok zX ∧
        scoresToZScore mfs [packed fA aY; packed fB b] = Ok zY ∧
        zX < zY ∧
        (totalWidth (fields mfs) ≤ 53 →
         float_ltb (storedScore zX) (storedScore zY) = true).
Proof.
  intros Hfs HA HB H. apply New_layout in H as (t & Hl & Hf & _ & _).
  rewrite Hfs in Hf.
  destruct (fields mfs) as [|fA [|fB [|? ?]]] eqn:Hfields;
    try (exfalso; apply Forall2_length in Hf; simpl in Hf; lia).
  apply Forall2_cons in Hf as [HofA Hf]. apply Forall2_cons in Hf as [HofB _].
  exists fA, fB. destruct HofA as (HtA & _ & HmA & _), HofB as (HtB & _ & HmB & _).
  split; [done|]. split; [done|]. split; [done|].
  intros aX aY b HY HXY HX Hb.
  assert (∀ a, packed fA a = maxAbsolute fA - a) as HpA.
  { intros a. unfold packed, defaultScore. rewrite HmA, HtA, HA. simpl. lia. }
  assert (packed fB b = b) as HpB.
  { unfold packed, defaultScore. rewrite HmB, HtB, HB. simpl. lia. }
  split; [apply HpA|]. split; [done|].
  rewrite !HpA, HpB.
  pose proof (layout_lookup _ _ Hl 0%nat fA eq_refl) as [HsA _].
  pose proof (layout_lookup _ _ Hl 1%nat fB eq_refl) as [HsB _].
  assert (∀ a, 0 ≤ a ≤ maxAbsolute fA →
               Forall2 inRange [fA; fB] [maxAbsolute fA - a; b]) as Hin.
  { intros a Ha. constructor; [|constructor; [|constructor]]; try done.
    unfold inRange. lia. }
  assert (∀ a, 0 ≤ a ≤ maxAbsolute fA →
               Forall2 shiftable (fields mfs) [maxAbsolute fA - a; b]) as Hsh.
  { intros a Ha. rewrite Hfields. by apply (inRange_all_shiftable _ t), Hin. }
  exists (packSum (fields mfs) [maxAbsolute fA - aX; b]),
         (packSum (fields mfs) [maxAbsolute fA - aY; b]).
  rewrite !scoresToZScore_packSum by (apply Hsh; lia).
  split; [done|]. split; [done|]. rewrite Hfields.
  assert (packSum [fA; fB] [maxAbsolute fA - aX; b]
          < packSum [fA; fB] [maxAbsolute fA - aY; b]) as Hlt.
  { simpl. pose proof (pow2_pos _ (slot_shift _ HsA)).
    rewrite !(Z.shiftl_mul_pow2 _ (shiftValue fA)) by apply HsA. nia. }
  split; [exact Hlt|].
  intros Hw. rewrite (layout_totalWidth _ _ Hl) in Hw.
  assert (2 ^ t ≤ 2 ^ 53) by (apply Z.pow_le_mono_r; lia).
  pose proof (packSum_bound _ _ Hl _ (Hin aX ltac:(lia))).
  pose proof (packSum_bound _ _ Hl _ (Hin aY ltac:(lia))).
  rewrite !storedScore_exact by lia.
  unfold float_ltb. cbn [Z.min Z.compare Z.sub Z.add Z.opp Z.pow Z.pow_pos].
  apply Z.ltb_lt. change (2 ^ (0 - Z.min 0 0)) with 1. lia.
Qed.

(** *** [setIndex] on each kind of field *)

Lemma setIndex_unbounded (f : Field) (i : nat) (s : Z) :
  IsInf1 (MaxValue f) = true → 0 ≤ s ≤ 53 →
  setIndex i s (freshField f) =
  Ok {| toField := f; bits := 53 - s; position := i; shiftValue := s;
        mask := Z.shiftl (Z.ones 53) s; isMain := true;
        maxAbsolute := Z.ones (53 - s);
        multiplier := if Sort f =? Descending then -1 else 1 |}.
Proof.
  intros Hmain Hs. unfold setIndex, freshField.
  cbn [mask isMain toField bits multiplier maxAbsolute]. rewrite Hmain.
  assert (s ≤ maxShift) as Hm by (rewrite maxShift_val; lia).
  rewrite (Lsh_total (Z.ones 53) s) by (by right).
  change (MaxBin 53) with (Ok (Z.ones 53)).
  unfold mbind, outcome_bind.
  rewrite (Lsh_total (Z.ones 53) s) by (by right).
  rewrite wrap_uint64_small by (rewrite pow64_val; lia).
  rewrite MaxBin_total by (rewrite maxShift_val; lia).
  by destruct (53 <? BitLen (Z.shiftl (Z.ones 53) s)).
Qed.

Lemma setIndex_bounded (f : Field) (i : nat) (s : Z) :
  IsInf1 (MaxValue f) = false → 0 ≤ s ≤ maxShift →
  setIndex i s (freshField f) =
  Ok {| toField := f; bits := BitCount (MaxValue f); position := i; shiftValue := s;
        mask := Z.shiftl (Z.ones (BitCount (MaxValue f))) s; isMain := false;
        maxAbsolute := Z.ones (BitCount (MaxValue f));
        multiplier := if Sort f =? Descending then -1 else 1 |}.
Proof.
  intros Hmain Hs. unfold setIndex, freshField.
  cbn [mask isMain toField bits multiplier maxAbsolute]. rewrite Hmain.
  rewrite Lsh_total by (right; lia). reflexivity.
Qed.

(** *** Main-field headroom (C3) *)

(** C3: what [setIndex] does to the unbounded field at a shift [s] between 1
    and 53.  The width and the maximum are as claimed (53 - s bits,
    2^(53-s) - 1); the mask is not: the "adjusted" mask is again 53 ones
    shifted by [s], it selects bits [s] through [s + 52], bit 53 among them,
    and differs from (2^(53-s) - 1) << s. *)
Theorem setIndex_main_mask_not_truncated (f : Field) (i : nat) (s : Z) :
  IsInf1 (MaxValue f) = true → 1 ≤ s ≤ 53 →
  ∃ mf : multiField,
    setIndex i s (freshField f) = Ok mf ∧
    bits mf = 53 - s ∧
    maxAbsolute mf = 2 ^ (53 - s) - 1 ∧
    mask mf = Z.shiftl (2 ^ 53 - 1) s ∧
    (∀ n : Z, Z.testbit (mask mf) n = (s <=? n) && (n <? s + 53)) ∧
    Z.testbit (mask mf) 53 = true ∧
    mask mf ≠ Z.shiftl (2 ^ (53 - s) - 1) s.
Proof.
  intros Hmain Hs. eexists. split; [apply setIndex_unbounded; [done | lia]|].
  cbn [bits maxAbsolute mask].
  assert (∀ n : Z, Z.testbit (Z.shiftl (Z.ones 53) s) n = (s <=? n) && (n <? s + 53)) as Hbits.
  { intros n. destruct (decide (0 ≤ n)) as [Hn|Hn].
    - rewrite Z.shiftl_spec, Z.testbit_ones by lia.
      destruct (s <=? n) eqn:H1, (0 <=? n - s) eqn:H2, (n - s <? 53) eqn:H3,
               (n <? s + 53) eqn:H4; try reflexivity; lia.
    - rewrite Z.testbit_neg_r by lia.
      destruct (s <=? n) eqn:H1; [lia | done]. }
  split; [done|]. split; [rewrite Z.ones_equiv; lia|]. split; [done|].
  split; [exact Hbits|].
  split.
  - rewrite Hbits. destruct (s <=? 53) eqn:H1, (53 <? s + 53) eqn:H2; try done; lia.
  - intros Heq.
    assert (Z.testbit (Z.shiftl (2 ^ (53 - s) - 1) s) 53 = false) as Hf.
    { replace (2 ^ (53 - s) - 1) with (Z.ones (53 - s)) by (rewrite Z.ones_equiv; lia).
      rewrite Z.shiftl_spec, Z.testbit_ones by lia.
      destruct (0 <=? 53 - s) eqn:H1, (53 - s <? 53 - s) eqn:H2; try done; lia. }
    rewrite <- Heq, Hbits in Hf.
    destruct (s <=? 53) eqn:H1, (53 <? s + 53) eqn:H2; try done; lia.
Qed.

(** *** Round trip (C1) *)

(** Where the mask of a field is exactly its slot, or nothing is declared
    before the field, the round trip holds in every constructed codec. *)
Lemma roundtrip_fixed_width_or_first (opts : MultiFieldSetOptions) (mfs : MultiFieldSet)
    (vs : list Z) (k : nat) (f : multiField) (v : Z) :
  New opts = Ok mfs →
  Forall2 inRange (fields mfs) vs →
  fields mfs !! k = Some f → vs !! k = Some v →
  isMain f = false ∨ k = 0%nat →
  ∃ z : Z, scoresToZScore mfs vs = Ok z ∧ extractFieldScore f (Some z) = v.
Proof.
  intros HN Hall Hk Hv Hcase.
  apply New_layout in HN as (t & Hl & _ & _ & _).
  exists (packSum (fields mfs) vs). split.
  - by apply scoresToZScore_packSum, (inRange_all_shiftable _ t).
  - apply (roundtrip_packSum _ _ Hl vs k f v Hall Hk Hv).
    destruct Hcase as [? | ->]; [by left | right].
    intros j u Hj. lia.
Qed.

(** In a codec of at most 53 bits the round trip holds for every field. *)
Lemma roundtrip_within_53_bits (opts : MultiFieldSetOptions) (mfs : MultiFieldSet)
    (vs : list Z) :
  New opts = Ok mfs →
  totalWidth (fields mfs) ≤ 53 →
  Forall2 inRange (fields mfs) vs →
  ∃ z : Z, scoresToZScore mfs vs = Ok z ∧ getFieldScores mfs (Some z) = vs.
Proof.
  intros HN Hw Hall.
  apply New_layout in HN as (t & Hl & _ & _ & _).
  rewrite (layout_totalWidth _ _ Hl) in Hw.
  exists (packSum (fields mfs) vs). split.
  - by apply scoresToZScore_packSum, (inRange_all_shiftable _ t).
  - unfold getFieldScores. by apply (roundtrip_safe _ t).
Qed.

(** C1 at the codec [mainInTheMiddle] (8-bit field, unbounded field, 8-bit
    field) and the in-range vector [1; 0; 0]: the unbounded field, whose
    value is 0, unpacks as 2^45, because its mask reaches into the slot of
    the field above it. *)
Theorem roundtrip_broken_below_main :
  ∃ (mfs : MultiFieldSet) (m : multiField) (z : Z),
    New mainInTheMiddle = Ok mfs ∧
    fields mfs !! 1%nat = Some m ∧
    Forall2 inRange (fields mfs) [1; 0; 0] ∧
    scoresToZScore mfs [1; 0; 0] = Ok z ∧
    extractFieldScore m (Some z) = 2 ^ 45 ∧
    extractFieldScore m (Some z) ≠ 0.
Proof.
  eexists _, _, _. split; [vm_compute; reflexivity|].
  split; [reflexivity|].
  split; [repeat constructor; done|].
  split; [vm_compute; reflexivity|].
  split; [vm_compute; reflexivity | vm_compute; discriminate].
Qed.

(** *** The store and the float64 score *)

Lemma updateAndStore_Ok (mfs : MultiFieldSet) (r : redis) (scores scores' : list Z)
    (updates : list (string * float64)) (member : string) (z : Z) :
  updateScores mfs scores updates = Ok scores' →
  scoresToZScore mfs scores' = Ok z →
  writeFault r = None →
  updateAndStore mfs r scores updates member =
  (Ok z, snd (ZAdd r (name mfs) member (float64_of_int64 (Int64 z)))).
Proof.
  intros Hu Hz Hw. unfold updateAndStore. rewrite Hu. simpl. rewrite Hz.
  unfold ZAdd. rewrite Hw. reflexivity.
Qed.

Lemma updateAndStore_inv (mfs : MultiFieldSet) (r r' : redis) (scores : list Z)
    (updates : list (string * float64)) (member : string) (z : Z) :
  updateAndStore mfs r scores updates member = (Ok z, r') →
  ∃ scores' : list Z,
    updateScores mfs scores updates = Ok scores' ∧
    scoresToZScore mfs scores' = Ok z ∧
    writeFault r = None ∧
    r' = snd (ZAdd r (name mfs) member (float64_of_int64 (Int64 z))).
Proof.
  unfold updateAndStore. intros H.
  destruct (updateScores mfs scores updates) as [scores' | e |] eqn:Hu;
    simpl in H; [|done|done].
  destruct (scoresToZScore mfs scores') as [z' | e |] eqn:Hz; [|done|done].
  unfold ZAdd in *. destruct (writeFault r) as [msg|] eqn:Hw; [done|].
  injection H as -> <-. exists scores'. auto.
Qed.

(** Whatever [updateAndStore] returns besides a score, the store is as before. *)
Lemma updateAndStore_failure (mfs : MultiFieldSet) (r r' : redis) (scores : list Z)
    (updates : list (string * float64)) (member : string) (res : outcome Z) :
  updateAndStore mfs r scores updates member = (res, r') →
  isOk res = false → r' = r.
Proof.
  unfold updateAndStore. intros H Hres.
  destruct (updateScores mfs scores updates ≫= scoresToZScore mfs) as [z | e |];
    [|by injection H|by injection H].
  unfold ZAdd in H. destruct (writeFault r) as [msg|]; [by injection H|].
  injection H as <- _. done.
Qed.

Lemma ZScore_ZAdd (r : redis) (key member : string) (score : float64) :
  readFault r = None → writeFault r = None →
  ZScore (snd (ZAdd r key member score)) key member = ReplyScore score.
Proof.
  intros Hr Hw. unfold ZAdd, ZScore. rewrite Hw. simpl. rewrite Hr.
  rewrite lookup_insert_eq. simpl. by rewrite lookup_insert_eq.
Qed.

Lemma ZAdd_ZAdd (r : redis) (key member : string) (s1 s2 : float64) :
  writeFault r = None →
  snd (ZAdd (snd (ZAdd r key member s1)) key member s2) = snd (ZAdd r key member s2).
Proof.
  intros Hw. unfold ZAdd. rewrite Hw. simpl. rewrite ?Hw. simpl.
  rewrite lookup_insert_eq. simpl. by rewrite !insert_insert_eq.
Qed.

(** A scalar below 2^53 survives the trip through the float64 score. *)
Lemma score_roundtrip (z : Z) :
  0 ≤ z < 2 ^ 53 → int64_of_float (float64_of_int64 (Int64 z)) = z.
Proof.
  intros Hz.
  assert (Int64 z = z) as ->.
  { unfold Int64. destruct (z <? 0) eqn:Hneg; [lia|].
    rewrite Z.abs_eq by lia. unfold wrap_int64.
    rewrite Z.mod_small; lia. }
  unfold float64_of_int64, round53. rewrite Z.abs_eq by lia.
  assert (Z.log2 z + 1 - 53 ≤ 0) as Hk.
  { destruct (decide (z = 0)) as [->|Hne]; [done|].
    assert (Z.log2 z < 53) by (apply Z.log2_lt_pow2; lia). lia. }
  apply Z.leb_le in Hk. rewrite Hk.
  assert (Z.sgn z * z = z) as -> by (destruct z; simpl; lia).
  unfold int64_of_float, truncate. simpl. rewrite Z.mul_1_r.
  destruct ((- 2 ^ 63 <=? z) && (z <? 2 ^ 63)) eqn:Hr; [done|].
  apply andb_false_iff in Hr as [Hr | Hr]; lia.
Qed.

(** *** The kills/deaths scenario (C7) *)

(** C7: with kills (Descending, max 10000, Incremental) declared before
    deaths (Ascending, max 10000, Incremental), deaths has 14 bits at shift
    0 and kills 14 bits at shift 14; for a member absent from the store the
    update {kills: +5, deaths: +2}, in either iteration order, returns and
    stores the scalar in which deaths is 2 and kills is maxAbsolute - 5, and
    the presentation of that scalar is kills = 5, deaths = 2. *)
Theorem kills_deaths_scenario (r : redis) (member : string) :
  ZScore r "leaderboard" member = ReplyNil →
  writeFault r = None →
  New killsDeaths = Ok killsDeathsSet ∧
  fields killsDeathsSet = [killsField; deathsField] ∧
  bits deathsField = 14 ∧ shiftValue deathsField = 0 ∧
  bits killsField = 14 ∧ shiftValue killsField = 14 ∧
  ∃ z : Z,
    (∀ updates : list (string * float64),
       updates = [("kills", Finite 5 0); ("deaths", Finite 2 0)] ∨
       updates = [("deaths", Finite 2 0); ("kills", Finite 5 0)] →
       IncreaseScore killsDeathsSet r updates member =
       (Ok z, snd (ZAdd r "leaderboard" member (Finite z 0)))) ∧
    extractFieldScore deathsField (Some z) = 2 ∧
    extractFieldScore killsField (Some z) = maxAbsolute killsField - 5 ∧
    zscoreToAllFieldScores killsDeathsSet z =
      [ {| fsName := "kills"; fsScore := 5 |}; {| fsName := "deaths"; fsScore := 2 |} ].
Proof.
  intros Hnil Hw.
  split; [vm_compute; reflexivity|].
  do 5 (split; [reflexivity|]).
  exists 268337154. split.
  - intros updates Hu. unfold IncreaseScore. cbn [name killsDeathsSet]. rewrite Hnil.
    destruct Hu as [-> | ->];
      (erewrite (updateAndStore_Ok _ _ _ _ _ _ 268337154);
       [reflexivity | vm_compute; reflexivity | vm_compute; reflexivity | done]).
  - split; [vm_compute; reflexivity|].
    split; vm_compute; reflexivity.
Qed.

(** *** The update loop *)

Lemma New_positionsOk (opts : MultiFieldSetOptions) (mfs : MultiFieldSet) :
  New opts = Ok mfs → positionsOk mfs.
Proof. intros H. by apply New_layout in H as (t & _ & _ & Hp & _). Qed.

Lemma position_in_range (mfs : MultiFieldSet) (n : string) (f : multiField)
    (scores : list Z) :
  positionsOk mfs → length scores = length (fields mfs) →
  GetFieldByName mfs n = Some f →
  ∃ cur : Z, scores !! position f = Some cur.
Proof.
  intros Hp Hlen Hf. apply (GetFieldByName_Some _ _ _ Hp) in Hf as [_ Hk].
  apply lookup_lt_is_Some. rewrite Hlen. by apply lookup_lt_Some in Hk.
Qed.

Lemma distinct_names_distinct_positions (mfs : MultiFieldSet) (n1 n2 : string)
    (f1 f2 : multiField) :
  positionsOk mfs →
  GetFieldByName mfs n1 = Some f1 → GetFieldByName mfs n2 = Some f2 →
  n1 ≠ n2 → position f1 ≠ position f2.
Proof.
  intros Hp H1 H2 Hne Heq.
  apply (GetFieldByName_Some _ _ _ Hp) in H1 as [Hn1 Hk1].
  apply (GetFieldByName_Some _ _ _ Hp) in H2 as [Hn2 Hk2].
  rewrite Heq in Hk1. congruence.
Qed.

Lemma updateField_unknown (mfs : MultiFieldSet) (scores : list Z) (n : string)
    (v : float64) :
  GetFieldByName mfs n = None →
  updateField mfs scores n v = Err (ErrFieldNotFound n).
Proof. intros H. unfold updateField. by rewrite H. Qed.

Lemma updateField_spec (mfs : MultiFieldSet) (scores : list Z) (n : string)
    (v : float64) (f : multiField) (cur : Z) :
  GetFieldByName mfs n = Some f → scores !! position f = Some cur →
  updateField mfs scores n v =
  match newPackedValue f cur v with
  | None => Err ErrUnknownUpdateType
  | Some s =>
      if (s <? 0) || (maxAbsolute f <? s)
      then Err (ErrOutOfRange s (Name (toField f)))
      else Ok (<[position f := s]> scores)
  end.
Proof.
  intros Hf Hcur. unfold updateField, newPackedValue. rewrite Hf, Hcur.
  pose proof (lookup_lt_Some _ _ _ Hcur) as Hlt.
  destruct (UpdateMode (toField f) =? Incremental).
  - simpl. by rewrite list_lookup_insert_eq.
  - destruct (UpdateMode (toField f) =? Replace); [|done].
    simpl. by rewrite list_lookup_insert_eq.
Qed.

Lemma updateField_Ok (mfs : MultiFieldSet) (scores scores' : list Z) (n : string)
    (v : float64) :
  positionsOk mfs → length scores = length (fields mfs) →
  updateField mfs scores n v = Ok scores' →
  ∃ (f : multiField) (cur s : Z),
    GetFieldByName mfs n = Some f ∧ scores !! position f = Some cur ∧
    newPackedValue f cur v = Some s ∧ inRange f s ∧
    scores' = <[position f := s]> scores.
Proof.
  intros Hp Hlen H.
  destruct (GetFieldByName mfs n) as [f|] eqn:Hf;
    [|by rewrite updateField_unknown in H].
  destruct (position_in_range _ _ _ scores Hp Hlen Hf) as [cur Hcur].
  rewrite (updateField_spec _ _ _ _ _ _ Hf Hcur) in H.
  destruct (newPackedValue f cur v) as [s|] eqn:Hs; [|done].
  destruct ((s <? 0) || (maxAbsolute f <? s)) eqn:Hr; [done|].
  injection H as <-. exists f, cur, s.
  apply orb_false_iff in Hr as [H1 H2].
  apply Z.ltb_ge in H1. apply Z.ltb_ge in H2.
  unfold inRange. repeat split; done.
Qed.

Lemma updateField_not_Panic (mfs : MultiFieldSet) (scores : list Z) (n : string)
    (v : float64) :
  positionsOk mfs → length scores = length (fields mfs) →
  updateField mfs scores n v ≠ Panic.
Proof.
  intros Hp Hlen.
  destruct (GetFieldByName mfs n) as [f|] eqn:Hf;
    [|by rewrite updateField_unknown].
  destruct (position_in_range _ _ _ scores Hp Hlen Hf) as [cur Hcur].
  rewrite (updateField_spec _ _ _ _ _ _ Hf Hcur).
  destruct (newPackedValue f cur v) as [s|]; [|done].
  by destruct ((s <? 0) || (maxAbsolute f <? s)).
Qed.

(** An update leaves the scores of the fields with other names alone. *)
Lemma updateScores_other (mfs : MultiFieldSet) (n : string) (f : multiField)
    (updates : list (string * float64)) :
  positionsOk mfs → GetFieldByName mfs n = Some f → n ∉ map fst updates →
  ∀ scores scores' : list Z,
    length scores = length (fields mfs) →
    updateScores mfs scores updates = Ok scores' →
    length scores' = length (fields mfs) ∧
    scores' !! position f = scores !! position f.
Proof.
  intros Hp Hf. induction updates as [|[n0 v0] rest IH]; intros Hn scores scores' Hlen H.
  - injection H as <-. done.
  - simpl in H. apply bind_Ok in H as (scores1 & H1 & H).
    apply updateField_Ok in H1 as (f0 & cur & s & Hf0 & _ & _ & _ & ->); [|done|done].
    simpl in Hn. apply not_elem_of_cons in Hn as [Hne Hn].
    apply IH in H as [Hlen' ->]; [|done|by rewrite length_insert].
    split; [done|]. apply list_lookup_insert_ne.
    apply (distinct_names_distinct_positions mfs n0 n); auto.
Qed.

(** The score of an updated field after the whole loop is the new packed
    value computed from its score before the loop. *)
Lemma updateScores_at (mfs : MultiFieldSet) (n : string) (a : float64)
    (f : multiField) (updates : list (string * float64)) :
  positionsOk mfs → GetFieldByName mfs n = Some f →
  NoDup (map fst updates) → (n, a) ∈ updates →
  ∀ (scores scores' : list Z) (cur : Z),
    length scores = length (fields mfs) →
    scores !! position f = Some cur →
    updateScores mfs scores updates = Ok scores' →
    ∃ s : Z, newPackedValue f cur a = Some s ∧ inRange f s ∧
             scores' !! position f = Some s.
Proof.
  intros Hp Hf. induction updates as [|[n0 v0] rest IH];
    intros Hnd Hin scores scores' cur Hlen Hcur H.
  - by apply elem_of_nil in Hin.
  - simpl in Hnd. apply NoDup_cons in Hnd as [Hn0 Hnd].
    simpl in H. apply bind_Ok in H as (scores1 & H1 & H).
    apply updateField_Ok in H1 as (f0 & cur0 & s & Hf0 & Hcur0 & Hs & Hr & ->);
      [|done|done].
    destruct (decide (n0 = n)) as [->|Hne].
    + assert (v0 = a) as ->.
      { apply elem_of_cons in Hin as [[= ?]|Hin]; [done|].
        destruct Hn0. apply list_elem_of_fmap. by exists (n, a). }
      assert (f0 = f) as -> by congruence.
      assert (cur0 = cur) as -> by congruence.
      exists s. split; [done|]. split; [done|].
      apply (updateScores_other mfs n f rest Hp Hf Hn0) in H as [_ ->];
        [|by rewrite length_insert].
      apply list_lookup_insert_eq. by apply lookup_lt_Some in Hcur.
    + apply elem_of_cons in Hin as [[= ? ?]|Hin]; [congruence|].
      apply (IH Hnd Hin _ _ cur) in H; [done | by rewrite length_insert |].
      rewrite list_lookup_insert_ne; [done|].
      by apply (distinct_names_distinct_positions mfs n0 n).
Qed.

(** An update whose new packed value is out of range makes the loop fail:
    with the out-of-range error, unless an unknown field or update type is
    met first. *)
Lemma updateScores_out_of_range (mfs : MultiFieldSet) (n : string) (a : float64)
    (f : multiField) (s : Z) (updates : list (string * float64)) :
  positionsOk mfs → GetFieldByName mfs n = Some f →
  s < 0 ∨ maxAbsolute f < s →
  NoDup (map fst updates) → (n, a) ∈ updates →
  ∀ (scores : list Z) (cur : Z),
    length scores = length (fields mfs) →
    scores !! position f = Some cur →
    newPackedValue f cur a = Some s →
    ∃ e : error,
      updateScores mfs scores updates = Err e ∧
      ((∀ n' v', (n', v') ∈ updates →
          ∃ f', GetFieldByName mfs n' = Some f' ∧
                (UpdateMode (toField f') = Incremental ∨
                 UpdateMode (toField f') = Replace)) →
       ∃ s' n', e = ErrOutOfRange s' n').
Proof.
  intros Hp Hf Hout. induction updates as [|[n0 v0] rest IH];
    intros Hnd Hin scores cur Hlen Hcur Hs.
  - by apply elem_of_nil in Hin.
  - simpl in Hnd. apply NoDup_cons in Hnd as [Hn0 Hnd]. simpl.
    destruct (decide (n0 = n)) as [->|Hne].
    + assert (v0 = a) as ->.
      { apply elem_of_cons in Hin as [[= ?]|Hin]; [done|].
        destruct Hn0. apply list_elem_of_fmap. by exists (n, a). }
      rewrite (updateField_spec _ _ _ _ _ _ Hf Hcur), Hs.
      assert ((s <? 0) || (maxAbsolute f <? s) = true) as ->.
      { apply orb_true_iff. destruct Hout; [left | right]; by apply Z.ltb_lt. }
      eexists. split; [reflexivity|]. eauto.
    + apply elem_of_cons in Hin as [[= ? ?]|Hin]; [congruence|].
      destruct (updateField mfs scores n0 v0) as [scores1 | e |] eqn:H1.
      * apply updateField_Ok in H1 as (f0 & cur0 & s0 & Hf0 & _ & _ & _ & ->);
          [|done|done].
        destruct (IH Hnd Hin (<[position f0 := s0]> scores) cur) as (e & He & Hkind);
          [by rewrite length_insert | | done |].
        { rewrite list_lookup_insert_ne; [done|].
          by apply (distinct_names_distinct_positions mfs n0 n). }
        exists e. split; [done|]. intros Hall. apply Hkind.
        intros n' v' Hin'. apply (Hall n' v'). by apply elem_of_cons; right.
      * exists e. split; [done|]. intros Hall.
        destruct (Hall n0 v0) as (f0 & Hf0 & Hmode); [by apply elem_of_cons; left|].
        destruct (position_in_range _ _ _ scores Hp Hlen Hf0) as [cur0 Hcur0].
        rewrite (updateField_spec _ _ _ _ _ _ Hf0 Hcur0) in H1.
        unfold newPackedValue in H1.
        destruct Hmode as [Hm | Hm]; rewrite Hm in H1; simpl in H1;
          match type of H1 with
          | (if ?c then _ else _) = _ => destruct c; [injection H1 as <-; eauto | done]
          end.
      * by apply updateField_not_Panic in H1.
Qed.

Lemma startScores_length (mfs : MultiFieldSet) (r : redis) (member : string)
    (start : list Z) :
  startScores mfs r member = Some start → length start = length (fields mfs).
Proof.
  unfold startScores, getFieldScores.
  destruct (ZScore r (name mfs) member); intros [= <-]; apply length_map.
Qed.

Lemma IncreaseScore_start (mfs : MultiFieldSet) (r : redis) (member : string)
    (updates : list (string * float64)) (start : list Z) :
  startScores mfs r member = Some start →
  IncreaseScore mfs r updates member = updateAndStore mfs r start updates member.
Proof.
  unfold startScores, IncreaseScore.
  destruct (ZScore r (name mfs) member); intros [= <-]; reflexivity.
Qed.

Lemma IncreaseScore_Ok_start (mfs : MultiFieldSet) (r r' : redis) (member : string)
    (updates : list (string * float64)) (z : Z) :
  IncreaseScore mfs r updates member = (Ok z, r') →
  ∃ start : list Z, startScores mfs r member = Some start.
Proof.
  unfold startScores, IncreaseScore.
  destruct (ZScore r (name mfs) member); intros H; [eauto | done | eauto].
Qed.

(** *** Replace semantics (C8) *)

(** C8: in a successful [IncreaseScore], whether the member was absent or
    present, the score of every updated field whose update type is Replace
    is, in the vector that is packed into the returned scalar, the field's
    default plus the amount (converted to int64, as the code does) times the
    field's multiplier; the current value plays no part. *)
Theorem replace_relative_to_default (opts : MultiFieldSetOptions) (mfs : MultiFieldSet)
    (r r' : redis) (updates : list (string * float64)) (member n : string)
    (a : float64) (f : multiField) (z : Z) :
  New opts = Ok mfs →
  NoDup (map fst updates) → (n, a) ∈ updates →
  GetFieldByName mfs n = Some f →
  UpdateMode (toField f) = Replace →
  IncreaseScore mfs r updates member = (Ok z, r') →
  ∃ start scores : list Z,
    startScores mfs r member = Some start ∧
    updateScores mfs start updates = Ok scores ∧
    scores !! position f = Some (defaultScore f + int64_of_float a * multiplier f) ∧
    scoresToZScore mfs scores = Ok z.
Proof.
  intros HN Hnd Hin Hf Hmode H.
  pose proof (New_positionsOk _ _ HN) as Hp.
  destruct (IncreaseScore_Ok_start _ _ _ _ _ _ H) as [start Hstart].
  rewrite (IncreaseScore_start _ _ _ _ _ Hstart) in H.
  apply updateAndStore_inv in H as (scores & Hu & Hz & _ & _).
  pose proof (startScores_length _ _ _ _ Hstart) as Hlen.
  destruct (position_in_range _ _ _ start Hp Hlen Hf) as [cur Hcur].
  destruct (updateScores_at mfs n a f updates Hp Hf Hnd Hin start scores cur
              Hlen Hcur Hu) as (s & Hs & _ & Hlookup).
  unfold newPackedValue in Hs. rewrite Hmode in Hs. simpl in Hs.
  injection Hs as <-. exists start, scores. auto.
Qed.

(** *** Range rejection (C4) *)

(** C4, as amended: when the new packed value of some updated field is below
    0 or above the field's maxAbsolute (the capacity 2^bits - 1 of its slot,
    which can exceed the declared MaxValue), [IncreaseScore] returns an error
    and leaves the store as it was; the error is the out-of-range error
    when every update names a known field with a known update type.  And
    whatever [IncreaseScore] returns besides a score, the store is
    unchanged. *)
Theorem out_of_range_aborts (opts : MultiFieldSetOptions) (mfs : MultiFieldSet)
    (r : redis) (updates : list (string * float64)) (member : string) :
  New opts = Ok mfs →
  NoDup (map fst updates) →
  (∀ (start : list Z) (n : string) (a : float64) (f : multiField) (cur s : Z),
     startScores mfs r member = Some start →
     (n, a) ∈ updates → GetFieldByName mfs n = Some f →
     start !! position f = Some cur →
     newPackedValue f cur a = Some s →
     s < 0 ∨ maxAbsolute f < s →
     ∃ e : error,
       IncreaseScore mfs r updates member = (Err e, r) ∧
       ((∀ n' v', (n', v') ∈ updates →
           ∃ f', GetFieldByName mfs n' = Some f' ∧
                 (UpdateMode (toField f') = Incremental ∨
                  UpdateMode (toField f') = Replace)) →
        ∃ s' n', e = ErrOutOfRange s' n')) ∧
  (∀ (res : outcome Z) (r' : redis),
     IncreaseScore mfs r updates member = (res, r') → isOk res = false → r' = r).
Proof.
  intros HN Hnd. pose proof (New_positionsOk _ _ HN) as Hp. split.
  - intros start n a f cur s Hstart Hin Hf Hcur Hs Hout.
    pose proof (startScores_length _ _ _ _ Hstart) as Hlen.
    destruct (updateScores_out_of_range mfs n a f s updates Hp Hf Hout Hnd Hin
                start cur Hlen Hcur Hs) as (e & He & Hkind).
    exists e. split; [|done].
    rewrite (IncreaseScore_start _ _ _ _ _ Hstart).
    unfold updateAndStore. by rewrite He.
  - intros res r' H Hres.
    destruct (startScores mfs r member) as [start|] eqn:Hstart.
    + rewrite (IncreaseScore_start _ _ _ _ _ Hstart) in H.
      by apply updateAndStore_failure in H.
    + unfold startScores in Hstart. unfold IncreaseScore in H.
      destruct (ZScore r (name mfs) member); [done | | done].
      by injection H.
Qed.

(** *** Additivity of Incremental updates (C9) *)

Lemma startScores_inRange (mfs : MultiFieldSet) (t : Z) (r : redis)
    (member : string) (start : list Z) :
  layout (fields mfs) t →
  (∀ c, ZScore r (name mfs) member = ReplyScore c → 0 ≤ int64_of_float c < 2 ^ 53) →
  startScores mfs r member = Some start →
  Forall2 inRange (fields mfs) start.
Proof.
  intros Hl Hsafe. unfold startScores, getFieldScores.
  destruct (ZScore r (name mfs) member) as [| msg | c]; intros [= <-].
  - apply Forall2_fmap_r, Forall_Forall2_diag, Forall_forall.
    intros f Hin. apply list_elem_of_lookup in Hin as [k Hk].
    apply (layout_lookup _ _ Hl) in Hk as [Hs _]. by apply inRange_defaultScore.
  - apply Forall2_fmap_r, Forall_Forall2_diag, Forall_forall.
    intros f Hin. apply list_elem_of_lookup in Hin as [k Hk].
    apply (layout_lookup _ _ Hl) in Hk as [Hs _]. apply extract_inRange; auto.
Qed.

Lemma inRange_insert (mfs : MultiFieldSet) (n : string) (f : multiField)
    (scores : list Z) (s : Z) :
  positionsOk mfs → GetFieldByName mfs n = Some f →
  Forall2 inRange (fields mfs) scores → inRange f s →
  Forall2 inRange (fields mfs) (<[position f := s]> scores).
Proof.
  intros Hp Hf Hall Hs.
  apply (GetFieldByName_Some _ _ _ Hp) in Hf as [_ Hk].
  rewrite <- (list_insert_id (fields mfs) (position f) f Hk).
  by apply Forall2_insert.
Qed.

(** One update of a single field [n] by the amount [a], from scores in
    range, in a codec of at most 53 bits. *)
Lemma single_update (mfs : MultiFieldSet) (t : Z) (r r' : redis) (member n : string)
    (a : float64) (f : multiField) (start : list Z) (z : Z) :
  positionsOk mfs → layout (fields mfs) t → t ≤ 53 →
  GetFieldByName mfs n = Some f → UpdateMode (toField f) = Incremental →
  Forall2 inRange (fields mfs) start →
  updateAndStore mfs r start [(n, a)] member = (Ok z, r') →
  ∃ cur : Z,
    let scores := <[position f := cur + int64_of_float a * multiplier f]> start in
    start !! position f = Some cur ∧
    inRange f (cur + int64_of_float a * multiplier f) ∧
    Forall2 inRange (fields mfs) scores ∧
    z = packSum (fields mfs) scores ∧ 0 ≤ z < 2 ^ 53 ∧
    getFieldScores mfs (Some z) = scores ∧
    writeFault r = None ∧
    r' = snd (ZAdd r (name mfs) member (float64_of_int64 (Int64 z))).
Proof.
  intros Hp Hl Ht Hf Hmode Hall H.
  apply updateAndStore_inv in H as (scores & Hu & Hz & Hw & Hr').
  pose proof (Forall2_length _ _ _ Hall) as Hlen. symmetry in Hlen.
  simpl in Hu. apply bind_Ok in Hu as (scores1 & Hu & [= <-]).
  apply updateField_Ok in Hu as (f' & cur & s & Hf' & Hcur & Hs & Hin & ->);
    [|done|done].
  assert (f' = f) as -> by congruence.
  unfold newPackedValue in Hs. rewrite Hmode in Hs. simpl in Hs. injection Hs as <-.
  pose proof (inRange_insert _ _ _ _ _ Hp Hf Hall Hin) as Hall'.
  rewrite scoresToZScore_packSum in Hz by (by apply (inRange_all_shiftable _ t)).
  injection Hz as <-.
  exists cur. simpl.
  pose proof (packSum_bound _ _ Hl _ Hall') as Hb.
  assert (2 ^ t ≤ 2 ^ 53) by (apply Z.pow_le_mono_r; lia).
  split; [done|]. split; [done|]. split; [done|]. split; [done|].
  split; [lia|]. split; [|done].
  unfold getFieldScores. by apply (roundtrip_safe _ t).
Qed.

Lemma single_update_total (mfs : MultiFieldSet) (t : Z) (r : redis) (member n : string)
    (c : float64) (f : multiField) (start : list Z) (cur : Z) :
  positionsOk mfs → layout (fields mfs) t →
  GetFieldByName mfs n = Some f → UpdateMode (toField f) = Incremental →
  Forall2 inRange (fields mfs) start →
  start !! position f = Some cur →
  inRange f (cur + int64_of_float c * multiplier f) →
  writeFault r = None →
  let z := packSum (fields mfs)
             (<[position f := cur + int64_of_float c * multiplier f]> start) in
  updateAndStore mfs r start [(n, c)] member =
  (Ok z, snd (ZAdd r (name mfs) member (float64_of_int64 (Int64 z)))).
Proof.
  intros Hp Hl Hf Hmode Hall Hcur Hin Hw z.
  apply (updateAndStore_Ok _ _ _
           (<[position f := cur + int64_of_float c * multiplier f]> start));
    [| | done].
  - simpl. rewrite (updateField_spec _ _ _ _ _ _ Hf Hcur).
    unfold newPackedValue. rewrite Hmode. simpl.
    destruct Hin as [H0 H1].
    apply Z.ltb_ge in H0. apply Z.ltb_ge in H1. by rewrite H0, H1.
  - apply scoresToZScore_packSum, (inRange_all_shiftable _ t); [done|].
    by apply (inRange_insert _ n).
Qed.

Lemma startScores_readFault (mfs : MultiFieldSet) (r : redis) (member : string)
    (start : list Z) :
  startScores mfs r member = Some start → readFault r = None.
Proof.
  unfold startScores, ZScore. by destruct (readFault r).
Qed.

(** Two Incremental updates of one field in sequence are one update by the
    sum of the (integer) amounts. *)
Lemma incremental_additive_amounts (opts : MultiFieldSetOptions) (mfs : MultiFieldSet)
    (r r1 r2 : redis) (member n : string) (f : multiField) (a b c : float64)
    (z1 z2 : Z) :
  New opts = Ok mfs →
  totalWidth (fields mfs) ≤ 53 →
  GetFieldByName mfs n = Some f → UpdateMode (toField f) = Incremental →
  (∀ s, ZScore r (name mfs) member = ReplyScore s → 0 ≤ int64_of_float s < 2 ^ 53) →
  int64_of_float c = int64_of_float a + int64_of_float b →
  IncreaseScore mfs r [(n, a)] member = (Ok z1, r1) →
  IncreaseScore mfs r1 [(n, b)] member = (Ok z2, r2) →
  IncreaseScore mfs r [(n, c)] member = (Ok z2, r2).
Proof.
  intros HN Hw Hf Hmode Hsafe Hsum H1 H2.
  pose proof (New_positionsOk _ _ HN) as Hp.
  apply New_layout in HN as (t & Hl & _ & _ & _).
  rewrite (layout_totalWidth _ _ Hl) in Hw.
  (* the first update *)
  destruct (IncreaseScore_Ok_start _ _ _ _ _ _ H1) as [start Hstart].
  pose proof (startScores_inRange _ _ _ _ _ Hl Hsafe Hstart) as Hall.
  pose proof (startScores_readFault _ _ _ _ Hstart) as Hrf.
  rewrite (IncreaseScore_start _ _ _ _ _ Hstart) in H1.
  apply (single_update mfs t _ _ member n a f) in H1
    as (cur & Hcur & Hin1 & Hall1 & Hz1 & Hb1 & Hget1 & Hwf & ->); try done.
  (* the second update reads what the first one wrote *)
  assert (startScores mfs
            (snd (ZAdd r (name mfs) member (float64_of_int64 (Int64 z1)))) member
          = Some (<[position f := cur + int64_of_float a * multiplier f]> start))
    as Hstart1.
  { unfold startScores. rewrite ZScore_ZAdd by done.
    rewrite score_roundtrip by done. by rewrite Hget1. }
  rewrite (IncreaseScore_start _ _ _ _ _ Hstart1) in H2.
  apply (single_update mfs t _ _ member n b f) in H2
    as (cur1 & Hcur1 & Hin2 & _ & Hz2 & _ & _ & _ & ->); try done.
  rewrite list_lookup_insert_eq in Hcur1 by (by apply lookup_lt_Some in Hcur).
  injection Hcur1 as <-.
  rewrite list_insert_insert_eq in Hz2.
  (* the single update *)
  rewrite (IncreaseScore_start _ _ _ _ _ Hstart).
  assert (cur + int64_of_float c * multiplier f
          = cur + int64_of_float a * multiplier f + int64_of_float b * multiplier f)
    as Heq by (rewrite Hsum; ring).
  rewrite (single_update_total mfs t r member n c f start cur); try done;
    rewrite Heq; [|done].
  rewrite <- Hz2. by rewrite ZAdd_ZAdd.
Qed.

(** C9, as amended: in a codec of at most 53 bits, for an Incremental field
    and a member that is absent or whose stored score is in [0, 2^53), if
    the update +100 succeeds and then the update +50 succeeds, the single
    update +150 succeeds with the same packed scalar and leaves the same
    store. *)
Theorem incremental_additive (opts : MultiFieldSetOptions) (mfs : MultiFieldSet)
    (r r1 r2 : redis) (member n : string) (f : multiField) (z1 z2 : Z) :
  New opts = Ok mfs →
  totalWidth (fields mfs) ≤ 53 →
  GetFieldByName mfs n = Some f → UpdateMode (toField f) = Incremental →
  (∀ s, ZScore r (name mfs) member = ReplyScore s → 0 ≤ int64_of_float s < 2 ^ 53) →
  IncreaseScore mfs r [(n, Finite 100 0)] member = (Ok z1, r1) →
  IncreaseScore mfs r1 [(n, Finite 50 0)] member = (Ok z2, r2) →
  IncreaseScore mfs r [(n, Finite 150 0)] member = (Ok z2, r2).
Proof.
  intros HN Hw Hf Hmode Hsafe H1 H2.
  by apply (incremental_additive_amounts opts mfs r r1 r2 member n f
              (Finite 100 0) (Finite 50 0) (Finite 150 0) z1 z2).
Qed.

(** *** When [New] fails (C2, C10) *)




Lemma plannedWidth_bound (fs : list Field) :
  0 ≤ plannedWidth fs ≤ 64 * Z.of_nat (length fs).
Proof.
  induction fs as [|f fs IH]; simpl length; [simpl; lia|].
  simpl plannedWidth. pose proof (BitCount_bound (MaxValue f)).
  destruct (IsInf1 (MaxValue f)); lia.
Qed.

Lemma assignIndices_total (fs : list Field) :
  headroomOk fs = true → feasibleLength fs →
  ∀ i : nat, ∃ mfs : list multiField,
    assignIndices i (map freshField fs) = Ok (mfs, plannedWidth fs).
Proof.
  unfold feasibleLength.
  induction fs as [|f fs IH]; intros Hh Hlen i; [by exists []|].
  simpl in Hh. apply andb_true_iff in Hh as [Hh Hf].
  simpl length in Hlen.
  destruct (IH Hh ltac:(lia) (S i)) as [rest Hrest].
  pose proof (plannedWidth_bound fs) as Hb.
  pose proof (BitCount_bound (MaxValue f)) as Hc.
  simpl. rewrite Hrest. simpl.
  destruct (IsInf1 (MaxValue f)) eqn:Hmain.
  - apply Z.leb_le in Hf.
    rewrite setIndex_unbounded by (done || lia). simpl.
    eexists. do 2 f_equal. rewrite wrap_uint64_small; rewrite ?pow64_val; lia.
  - rewrite setIndex_bounded by (done || lia). simpl.
    eexists. do 2 f_equal.
    rewrite wrap_uint64_small; [done|]. rewrite maxShift_val in Hlen.
    rewrite pow64_val. lia.
Qed.

Lemma New_total (opts : MultiFieldSetOptions) :
  optName opts ≠ "" → optFields opts ≠ [] → optClient opts ≠ None →
  headroomOk (optFields opts) = true → feasibleLength (optFields opts) →
  ∃ mfs : MultiFieldSet,
    New opts = Ok mfs ∧ totalWidth (fields mfs) = plannedWidth (optFields opts).
Proof.
  intros Hn Hf Hc Hh Hlen. unfold New.
  rewrite bool_decide_eq_false_2 by done.
  rewrite bool_decide_eq_false_2 by (by destruct (optFields opts)).
  destruct (optClient opts) as [c|]; [|done].
  rewrite newMultiFields_fresh. simpl.
  destruct (assignIndices_total _ Hh Hlen 0%nat) as [mfs Hassign].
  rewrite Hassign. simpl.
  apply assignIndices_layout in Hassign as (Hl & _ & _).
  rewrite scoresToZScore_packSum; simpl.
  - eexists. split; [reflexivity|]. simpl. by apply layout_totalWidth.
  - apply (inRange_all_shiftable _ _ _ Hl).
    apply Forall2_fmap_r, Forall_Forall2_diag, Forall_forall.
    intros f Hin. apply list_elem_of_lookup in Hin as [k Hk].
    apply (layout_lookup _ _ Hl) in Hk as [Hs _]. by apply inRange_defaultScore.
Qed.


Lemma headroomOk_bounded (fs : list Field) :
  Forall (fun f => IsInf1 (MaxValue f) = false) fs →
  headroomOk fs = true ∧
  plannedWidth fs = foldr (fun f acc => BitCount (MaxValue f) + acc) 0 fs.
Proof.
  induction 1 as [|f fs Hf _ [IH1 IH2]]; [done|].
  simpl. rewrite Hf, IH1, IH2. split; [done | lia].
Qed.

(** C2, as amended: construction does not validate the declarations.  With
    a name, a client and at least one field, fixed-width declarations are
    always accepted: the widths simply add up, whatever the sum (also above
    53), and a field whose MaxValue is negative (or zero) gets a slot of one
    bit. *)
Theorem New_accepts_fixed_width_fields (opts : MultiFieldSetOptions) :
  optName opts ≠ "" → optFields opts ≠ [] → optClient opts ≠ None →
  Forall (fun f => IsInf1 (MaxValue f) = false) (optFields opts) →
  feasibleLength (optFields opts) →
  ∃ mfs : MultiFieldSet,
    New opts = Ok mfs ∧
    totalWidth (fields mfs)
      = foldr (fun f acc => BitCount (MaxValue f) + acc) 0 (optFields opts) ∧
    ∀ (k : nat) (f : multiField),
      fields mfs !! k = Some f → float_le0 (MaxValue (toField f)) = true →
      bits f = 1 ∧ maxAbsolute f = 1.
Proof.
  intros Hn Hf Hc Hall Hlen.
  destruct (headroomOk_bounded _ Hall) as [Hh Hsum].
  destruct (New_total opts Hn Hf Hc Hh Hlen) as (mfs & HN & Hw).
  exists mfs. split; [done|]. split; [congruence|].
  intros k f Hk Hle.
  apply New_layout in HN as (t & Hl & Hof & _ & _).
  destruct (Forall2_lookup_r _ _ _ _ _ Hof Hk) as (d & Hd & Htf & _ & _ & Hbits).
  apply (layout_lookup _ _ Hl) in Hk as [Hs _].
  assert (bits f = 1) as Hb.
  { rewrite Hbits.
    - unfold BitCount. rewrite <- Htf. by rewrite Hle.
    - rewrite Forall_forall in Hall. apply Hall.
      apply list_elem_of_lookup. by exists k. }
  split; [done|]. by rewrite (slot_max _ Hs), Hb.
Qed.


(** ** Further properties of the package *)

(** *** Slots and masks *)

Lemma truncate_nonpos (m e : Z) : m ≤ 0 → truncate m e ≤ 0.
Proof.
  intros Hm. unfold truncate. destruct (0 <=? e) eqn:He.
  - apply Z.leb_le in He. pose proof (pow2_pos e He). nia.
  - apply Z.leb_gt in He.
    assert (0 < 2 ^ (- e)) as Hp by (apply pow2_pos; lia).
    pose proof (Z.quot_le_mono m 0 (2 ^ (- e)) Hp Hm) as Hq.
    by rewrite Z.quot_0_l in Hq by lia.
Qed.

Lemma BitCount_Finite (m e : Z) :
  0 < m → 0 ≤ truncate m e < 2 ^ 64 →
  BitCount (Finite m e) = Len64 (truncate m e).
Proof.
  intros Hm Ht. unfold BitCount, float_le0, uint64_of_float.
  destruct (m <=? 0) eqn:Hle; [apply Z.leb_le in Hle; lia|].
  assert ((0 <=? truncate m e) && (truncate m e <? 2 ^ 64) = true) as ->; [|done].
  apply andb_true_iff. split; [apply Z.leb_le | apply Z.ltb_lt]; lia.
Qed.

Lemma ones_Len64 (t : Z) :
  0 ≤ t → t ≤ Z.ones (Len64 t) ∧ (1 ≤ t → Z.ones (Len64 t) < 2 * t).
Proof.
  intros Ht. unfold Len64. destruct (t =? 0) eqn:H0.
  - apply Z.eqb_eq in H0. subst t. split; [done | lia].
  - apply Z.eqb_neq in H0.
    destruct (Z.log2_spec t ltac:(lia)) as [Hlo Hhi].
    rewrite Z.ones_equiv. replace (Z.log2 t + 1) with (Z.succ (Z.log2 t)) by lia.
    rewrite Z.pow_succ_r in * by apply Z.log2_nonneg. lia.
Qed.

(** The slot of a fixed-width field is the smallest all-ones range that
    holds the integer part of its declared maximum. *)
Theorem slot_holds_declared_maximum (opts : MultiFieldSetOptions) (mfs : MultiFieldSet)
    (k : nat) (f : multiField) (m e : Z) :
  New opts = Ok mfs →
  fields mfs !! k = Some f →
  MaxValue (toField f) = Finite m e →
  0 ≤ truncate m e < 2 ^ 64 →
  maxAbsolute f = 2 ^ bits f - 1 ∧
  truncate m e ≤ maxAbsolute f ∧
  (1 ≤ truncate m e → maxAbsolute f < 2 * truncate m e).
Proof.
  intros HN Hk Hmax Ht.
  apply New_layout in HN as (t & Hl & Hof & _ & _).
  destruct (Forall2_lookup_r _ _ _ _ _ Hof Hk) as (d & _ & Htf & _ & _ & Hbits).
  apply (layout_lookup _ _ Hl) in Hk as [Hs _].
  rewrite <- Htf, Hmax in Hbits. specialize (Hbits eq_refl).
  rewrite (slot_max _ Hs), Hbits.
  split; [rewrite Z.ones_equiv; lia|].
  destruct (decide (0 < m)) as [Hm|Hm].
  - rewrite BitCount_Finite by done. apply ones_Len64. lia.
  - pose proof (truncate_nonpos m e ltac:(lia)).
    assert (BitCount (Finite m e) = 1) as ->.
    { unfold BitCount, float_le0.
      destruct (m <=? 0) eqn:Hle; [done | apply Z.leb_gt in Hle; lia]. }
    change (Z.ones 1) with 1. lia.
Qed.

(** A declared maximum strictly between 0 and 1 gives a slot of no bits:
    the field can only hold 0. *)
Theorem fractional_maximum_gives_empty_slot (opts : MultiFieldSetOptions)
    (mfs : MultiFieldSet) (k : nat) (f : multiField) (m e : Z) :
  New opts = Ok mfs →
  fields mfs !! k = Some f →
  MaxValue (toField f) = Finite m e →
  0 < m → truncate m e = 0 →
  bits f = 0 ∧ mask f = 0 ∧ maxAbsolute f = 0 ∧ ∀ v : Z, inRange f v → v = 0.
Proof.
  intros HN Hk Hmax Hm Ht.
  apply New_layout in HN as (t & Hl & Hof & _ & _).
  destruct (Forall2_lookup_r _ _ _ _ _ Hof Hk) as (d & _ & Htf & Hmain & _ & Hbits).
  apply (layout_lookup _ _ Hl) in Hk as [Hs _].
  rewrite <- Htf, Hmax in Hbits, Hmain. specialize (Hbits eq_refl).
  rewrite BitCount_Finite, Ht in Hbits by (rewrite ?Ht; done).
  change (Len64 0) with 0 in Hbits.
  split; [done|]. split.
  - rewrite (slot_mask _ Hs). unfold maskWidth. simpl in Hmain.
    rewrite Hmain, Hbits. apply Z.shiftl_0_l.
  - split; [by rewrite (slot_max _ Hs), Hbits|].
    intros v. by apply inRange_empty_slot.
Qed.

Lemma testbit_slot (w s n : Z) :
  0 ≤ s → 0 ≤ w →
  Z.testbit (Z.shiftl (Z.ones w) s) n = (s <=? n) && (n <? s + w).
Proof.
  intros Hs Hw. destruct (decide (0 ≤ n)) as [Hn|Hn].
  - rewrite Z.shiftl_spec, Z.testbit_ones by lia.
    destruct (s <=? n) eqn:H1, (0 <=? n - s) eqn:H2, (n - s <? w) eqn:H3,
             (n <? s + w) eqn:H4; try reflexivity; lia.
  - rewrite Z.testbit_neg_r by lia.
    destruct (s <=? n) eqn:H1; [lia | done].
Qed.

(** The masks of two distinct fixed-width fields have no bit in common. *)
Theorem fixed_width_masks_disjoint (opts : MultiFieldSetOptions) (mfs : MultiFieldSet)
    (j k : nat) (g f : multiField) :
  New opts = Ok mfs →
  j ≠ k → fields mfs !! j = Some g → fields mfs !! k = Some f →
  isMain g = false → isMain f = false →
  Z.land (mask g) (mask f) = 0.
Proof.
  intros HN Hjk Hj Hk Hg Hf.
  apply New_layout in HN as (t & Hl & _ & _ & _).
  pose proof (layout_lookup _ _ Hl _ _ Hj) as [Hsg _].
  pose proof (layout_lookup _ _ Hl _ _ Hk) as [Hsf _].
  assert (shiftValue f + bits f ≤ shiftValue g ∨ shiftValue g + bits g ≤ shiftValue f)
    as Hord.
  { destruct (decide (j < k)%nat).
    - left. by apply (layout_order _ _ Hl j k).
    - right. apply (layout_order _ _ Hl k j); [lia | done | done]. }
  apply Z.bits_inj'. intros n Hn.
  rewrite Z.land_spec, Z.bits_0, (slot_mask _ Hsg), (slot_mask _ Hsf).
  unfold maskWidth. rewrite Hg, Hf.
  rewrite !testbit_slot by (apply Hsg || apply Hsf).
  destruct (shiftValue g <=? n) eqn:H1, (n <? shiftValue g + bits g) eqn:H2,
           (shiftValue f <=? n) eqn:H3, (n <? shiftValue f + bits f) eqn:H4;
    try reflexivity; lia.
Qed.

(** Whatever the scalar, also a negative one, a fixed-width field unpacks to
    a value in its range, and an unbounded field to a value below 2^53. *)
Theorem extractFieldScore_range (opts : MultiFieldSetOptions) (mfs : MultiFieldSet)
    (k : nat) (f : multiField) (z : Z) :
  New opts = Ok mfs →
  fields mfs !! k = Some f →
  0 ≤ extractFieldScore f (Some z) ∧
  (isMain f = false → extractFieldScore f (Some z) ≤ maxAbsolute f) ∧
  (isMain f = true → extractFieldScore f (Some z) < 2 ^ 53).
Proof.
  intros HN Hk.
  apply New_layout in HN as (t & Hl & _ & _ & _).
  apply (layout_lookup _ _ Hl) in Hk as [Hs _].
  rewrite extractFieldScore_div_mod by done.
  pose proof (maskWidth_ge_bits _ Hs) as Hw.
  assert (0 < 2 ^ maskWidth f) as Hp by (apply pow2_pos; lia).
  pose proof (Z.mod_pos_bound (z / 2 ^ shiftValue f) (2 ^ maskWidth f) Hp) as Hm.
  rewrite (slot_max _ Hs), Z.ones_equiv.
  unfold maskWidth in *. destruct (isMain f).
  - split; [lia|]. split; [done | intros _; lia].
  - split; [lia|]. split; [intros _; lia | done].
Qed.

(** *** The packed scalar *)

Lemma packSum_lex (fs : list multiField) (t : Z) :
  layout fs t →
  ∀ vs ws : list Z,
    Forall2 inRange fs vs → Forall2 inRange fs ws →
    lexLt vs ws → packSum fs vs < packSum fs ws.
Proof.
  induction 1 as [|f rest t Hl IH Hs Ht]; intros vs ws Hv Hw Hlt.
  - inversion Hv; subst. done.
  - inversion Hv as [|? v ? vs' [Hv0 _] Hvs]; subst.
    inversion Hw as [|? w ? ws' [Hw0 _] Hws]; subst.
    simpl. simpl in Hlt.
    pose proof (packSum_bound _ _ Hl vs' Hvs) as Hbv.
    pose proof (packSum_bound _ _ Hl ws' Hws) as Hbw.
    pose proof (slot_shift _ Hs) as Hs0.
    pose proof (pow2_pos _ Hs0).
    rewrite !Z.shiftl_mul_pow2 by done.
    destruct Hlt as [Hlt | [-> Hlt]].
    + nia.
    + specialize (IH vs' ws' Hvs Hws Hlt). lia.
Qed.

Lemma lexLt_trichotomy (vs : list Z) :
  ∀ ws : list Z, length vs = length ws → vs = ws ∨ lexLt vs ws ∨ lexLt ws vs.
Proof.
  induction vs as [|v vs IH]; intros [|w ws] Hlen; simpl in *; try lia; [by left|].
  destruct (Z.lt_trichotomy v w) as [? | [-> | ?]]; [by right; left; left | | by right; right; left].
  destruct (IH ws ltac:(lia)) as [-> | [? | ?]];
    [by left | right; left; right; done | right; right; right; done].
Qed.

(** The scalar orders the in-range vectors of a codec lexicographically,
    the first-declared field being the most significant. *)
Theorem pack_lexicographic (opts : MultiFieldSetOptions) (mfs : MultiFieldSet)
    (vs ws : list Z) :
  New opts = Ok mfs →
  Forall2 inRange (fields mfs) vs → Forall2 inRange (fields mfs) ws →
  ∃ zv zw : Z,
    scoresToZScore mfs vs = Ok zv ∧ scoresToZScore mfs ws = Ok zw ∧
    (zv < zw ↔ lexLt vs ws).
Proof.
  intros HN Hv Hw. apply New_layout in HN as (t & Hl & _ & _ & _).
  exists (packSum (fields mfs) vs), (packSum (fields mfs) ws).
  rewrite !scoresToZScore_packSum by (by apply (inRange_all_shiftable _ t)).
  split; [done|]. split; [done|]. split.
  - intros Hlt.
    destruct (lexLt_trichotomy vs ws) as [-> | [? | Hgt]]; [| lia | done |].
    + by rewrite <- (Forall2_length _ _ _ Hv), <- (Forall2_length _ _ _ Hw).
    + pose proof (packSum_lex _ _ Hl ws vs Hw Hv Hgt). lia.
  - by apply (packSum_lex _ t).
Qed.

(** Two in-range vectors with the same scalar are the same vector. *)
Theorem pack_injective (opts : MultiFieldSetOptions) (mfs : MultiFieldSet)
    (vs ws : list Z) (z : Z) :
  New opts = Ok mfs →
  Forall2 inRange (fields mfs) vs → Forall2 inRange (fields mfs) ws →
  scoresToZScore mfs vs = Ok z → scoresToZScore mfs ws = Ok z →
  vs = ws.
Proof.
  intros HN Hv Hw Hzv Hzw. apply New_layout in HN as (t & Hl & _ & _ & _).
  rewrite scoresToZScore_packSum in Hzv, Hzw by (by apply (inRange_all_shiftable _ t)).
  injection Hzv as Hzv. injection Hzw as Hzw.
  destruct (lexLt_trichotomy vs ws) as [? | [Hlt | Hlt]]; [| done | |].
  - by rewrite <- (Forall2_length _ _ _ Hv), <- (Forall2_length _ _ _ Hw).
  - pose proof (packSum_lex _ _ Hl vs ws Hv Hw Hlt). lia.
  - pose proof (packSum_lex _ _ Hl ws vs Hw Hv Hlt). lia.
Qed.

(** The scalar of an in-range vector is below 2^(total width); in a codec of
    at most 53 bits it is stored as a float64 and read back unchanged. *)
Theorem packed_scalar_fits (opts : MultiFieldSetOptions) (mfs : MultiFieldSet)
    (vs : list Z) :
  New opts = Ok mfs →
  Forall2 inRange (fields mfs) vs →
  ∃ z : Z,
    scoresToZScore mfs vs = Ok z ∧
    0 ≤ z < 2 ^ totalWidth (fields mfs) ∧
    (totalWidth (fields mfs) ≤ 53 →
     int64_of_float (float64_of_int64 (Int64 z)) = z).
Proof.
  intros HN Hv. apply New_layout in HN as (t & Hl & _ & _ & _).
  exists (packSum (fields mfs) vs).
  rewrite scoresToZScore_packSum by (by apply (inRange_all_shiftable _ t)).
  rewrite (layout_totalWidth _ _ Hl).
  pose proof (packSum_bound _ _ Hl vs Hv) as Hb.
  split; [done|]. split; [done|]. intros Ht.
  assert (2 ^ t ≤ 2 ^ 53).
  { apply Z.pow_le_mono_r; [lia|done]. }
  apply score_roundtrip. lia.
Qed.

Lemma extract_exact (f : multiField) (z : Z) :
  slotOk f → 0 ≤ z < 2 ^ 53 →
  extractFieldScore f (Some z) = (z / 2 ^ shiftValue f) mod 2 ^ bits f.
Proof.
  intros Hs Hz. rewrite extractFieldScore_div_mod by done.
  unfold maskWidth. destruct (isMain f) eqn:Hmain; [|done].
  pose proof (slot_shift _ Hs) as Hs0. pose proof (slot_bits _ Hs) as Hb.
  pose proof (slot_main _ Hs Hmain) as Hsum. pose proof (pow2_pos _ Hs0).
  assert (0 ≤ z / 2 ^ shiftValue f) by (apply Z.div_pos; lia).
  assert (z / 2 ^ shiftValue f < 2 ^ bits f).
  { apply Z.div_lt_upper_bound; [lia|].
    rewrite <- Z.pow_add_r, Hsum by lia. lia. }
  assert (2 ^ bits f ≤ 2 ^ 53) by (apply Z.pow_le_mono_r; lia).
  rewrite !Z.mod_small; lia.
Qed.

Lemma packSum_extract (fs : list multiField) (t : Z) :
  layout fs t →
  ∀ z : Z, 0 ≤ z < 2 ^ 53 →
    packSum fs (map (fun f => extractFieldScore f (Some z)) fs) = z mod 2 ^ t.
Proof.
  induction 1 as [|f rest t Hl IH Hs Ht]; intros z Hz.
  - simpl. by rewrite Z.mod_1_r.
  - cbn [packSum map]. rewrite (IH z Hz), extract_exact by done.
    pose proof (slot_shift _ Hs) as Hs0. pose proof (slot_bits _ Hs) as Hb.
    pose proof (pow2_pos _ Hs0). assert (0 < 2 ^ bits f) by (apply pow2_pos; lia).
    rewrite Z.shiftl_mul_pow2, Z.pow_add_r, Z.rem_mul_r by lia.
    rewrite Ht. ring.
Qed.

(** Unpacking a scalar of the codec's width and packing the values again
    gives the scalar back (codecs of at most 53 bits). *)
Theorem unpack_then_pack (opts : MultiFieldSetOptions) (mfs : MultiFieldSet) (z : Z) :
  New opts = Ok mfs →
  totalWidth (fields mfs) ≤ 53 →
  0 ≤ z < 2 ^ totalWidth (fields mfs) →
  scoresToZScore mfs (getFieldScores mfs (Some z)) = Ok z.
Proof.
  intros HN Ht Hz. apply New_layout in HN as (t & Hl & _ & _ & _).
  rewrite (layout_totalWidth _ _ Hl) in *.
  assert (2 ^ t ≤ 2 ^ 53).
  { apply Z.pow_le_mono_r; [lia|done]. }
  unfold getFieldScores. rewrite scoresToZScore_packSum.
  - rewrite (packSum_extract _ _ Hl) by lia. f_equal. apply Z.mod_small. lia.
  - apply (inRange_all_shiftable _ t); [done|].
    apply Forall2_fmap_r, Forall_Forall2_diag, Forall_forall.
    intros f Hin. apply list_elem_of_lookup in Hin as [k Hk].
    apply (layout_lookup _ _ Hl) in Hk as [Hs _]. apply extract_inRange; [done|lia].
Qed.

Lemma totalWidth_declared (ds : list Field) (fs : list multiField) :
  Forall2 fieldOf ds fs →
  Forall (fun d => IsInf1 (MaxValue d) = false) ds →
  totalWidth fs = declaredWidth ds.
Proof.
  induction 1 as [|d f ds fs Hof _ IH]; intros Hall; [done|].
  apply Forall_cons in Hall as [Hd Hall]. simpl.
  destruct Hof as (_ & _ & _ & Hb). rewrite (Hb Hd), (IH Hall). done.
Qed.

(** An unbounded field declared before fixed-width fields of [W] bits in
    total: [New] returns only if [W] is at most 53, and then the unbounded
    field sits at shift [W] with the remaining 53 - W bits, and the codec
    is exactly 53 bits wide. *)
Theorem unbounded_first_takes_headroom (opts : MultiFieldSetOptions)
    (mfs : MultiFieldSet) (u : Field) (rest : list Field) :
  optFields opts = u :: rest →
  IsInf1 (MaxValue u) = true →
  Forall (fun d => IsInf1 (MaxValue d) = false) rest →
  New opts = Ok mfs →
  ∃ f : multiField,
    fields mfs !! 0%nat = Some f ∧ toField f = u ∧
    declaredWidth rest ≤ 53 ∧
    shiftValue f = declaredWidth rest ∧
    bits f = 53 - declaredWidth rest ∧
    maxAbsolute f = 2 ^ (53 - declaredWidth rest) - 1 ∧
    totalWidth (fields mfs) = 53.
Proof.
  intros Hfs Hu Hrest HN. apply New_layout in HN as (t & Hl & Hof & _ & _).
  rewrite Hfs in Hof.
  destruct (fields mfs) as [|f fs] eqn:Hfields;
    [by apply Forall2_length in Hof|].
  apply Forall2_cons in Hof as [Hf Hof].
  inversion Hl as [|? ? t0 Hl0 Hs Hshift]; subst.
  pose proof (layout_totalWidth _ _ Hl0) as Htw.
  rewrite (totalWidth_declared _ _ Hof Hrest) in Htw.
  destruct Hf as (Htf & Hmain & _ & _). rewrite Hu in Hmain.
  pose proof (slot_main _ Hs Hmain) as Hsum. pose proof (slot_bits _ Hs) as Hb.
  exists f. split; [done|]. split; [done|].
  rewrite Htw. split; [lia|]. split; [done|]. split; [lia|].
  split.
  - rewrite (slot_max _ Hs), Z.ones_equiv. replace (bits f) with (53 - shiftValue f) by lia. lia.
  - simpl. rewrite (layout_totalWidth _ _ Hl0). lia.
Qed.

(** *** IncreaseScore and the store *)

Lemma New_defaultZScore (opts : MultiFieldSetOptions) (mfs : MultiFieldSet) :
  New opts = Ok mfs →
  ∃ dz : Z,
    defaultZScore mfs = Some dz ∧
    scoresToZScore mfs (map defaultScore (fields mfs)) = Ok dz.
Proof.
  unfold New. intros H.
  destruct (bool_decide (optName opts = "")); [done|].
  destruct (bool_decide (length (optFields opts) = 0%nat)); [done|].
  destruct (optClient opts) as [c|]; [|done].
  apply bind_Ok in H as (mfs0 & _ & H).
  apply bind_Ok in H as ([mfs' t] & _ & H).
  apply bind_Ok in H as (z & Hz & [= <-]). simpl.
  exists z. split; [done|]. exact Hz.
Qed.

Lemma updateScores_keeps (P : multiField → Z → Prop) (mfs : MultiFieldSet) :
  positionsOk mfs →
  (∀ (f : multiField) (v : Z) (k : nat),
     fields mfs !! k = Some f → inRange f v → P f v) →
  ∀ (updates : list (string * float64)) (scores scores' : list Z),
    Forall2 P (fields mfs) scores →
    updateScores mfs scores updates = Ok scores' →
    Forall2 P (fields mfs) scores'.
Proof.
  intros Hp HP. induction updates as [|[n v] rest IH]; intros scores scores' Hall H.
  - by injection H as <-.
  - simpl in H. apply bind_Ok in H as (scores1 & H1 & H).
    pose proof (Forall2_length _ _ _ Hall) as Hlen. symmetry in Hlen.
    apply updateField_Ok in H1 as (f & cur & s & Hf & _ & _ & Hin & ->);
      [|done|done].
    refine (IH _ _ _ H). clear IH H.
    apply (GetFieldByName_Some _ _ _ Hp) in Hf as [_ Hk].
    rewrite <- (list_insert_id (fields mfs) (position f) f Hk).
    apply Forall2_insert; [done|]. by apply (HP f s (position f)).
Qed.

Lemma updateScores_not_Panic (mfs : MultiFieldSet) :
  positionsOk mfs →
  ∀ (updates : list (string * float64)) (scores : list Z),
    length scores = length (fields mfs) →
    updateScores mfs scores updates ≠ Panic.
Proof.
  intros Hp. induction updates as [|[n v] rest IH]; intros scores Hlen; [done|].
  simpl. destruct (updateField mfs scores n v) as [scores1 | e |] eqn:H1; simpl.
  - apply IH.
    apply updateField_Ok in H1 as (f & cur & s & _ & _ & _ & _ & ->); [|done|done].
    by rewrite length_insert.
  - done.
  - by apply updateField_not_Panic in H1.
Qed.

Lemma startScores_shiftable (mfs : MultiFieldSet) (t : Z) (r : redis)
    (member : string) (start : list Z) :
  layout (fields mfs) t →
  startScores mfs r member = Some start →
  Forall2 shiftable (fields mfs) start.
Proof.
  intros Hl. unfold startScores, getFieldScores.
  destruct (ZScore r (name mfs) member) as [| msg | c]; intros [= <-];
    apply Forall2_fmap_r, Forall_Forall2_diag, Forall_forall;
    intros f Hin; apply list_elem_of_lookup in Hin as [k Hk];
    apply (layout_lookup _ _ Hl) in Hk as [Hs _].
  - by apply inRange_shiftable, inRange_defaultScore.
  - unfold shiftable.
    destruct (decide (bits f = 0)) as [Hb|Hb]; [|right; by apply (slot_alloc _ Hs)].
    destruct (isMain f) eqn:Hmain.
    + right. pose proof (slot_main _ Hs Hmain). rewrite maxShift_val. lia.
    + left. unfold extractFieldScore. rewrite (slot_mask _ Hs).
      unfold maskWidth. rewrite Hmain, Hb.
      by rewrite Z.shiftl_0_l, Z.land_0_r, Z.shiftr_0_l.
Qed.

(** On a codec that [New] returned, [IncreaseScore] never panics: no index
    is out of range and no shift too large, whatever the store holds and
    whatever the update asks. *)
Theorem IncreaseScore_never_panics (opts : MultiFieldSetOptions) (mfs : MultiFieldSet)
    (r : redis) (updates : list (string * float64)) (member : string) :
  New opts = Ok mfs →
  fst (IncreaseScore mfs r updates member) ≠ Panic.
Proof.
  intros HN. pose proof (New_positionsOk _ _ HN) as Hp.
  apply New_layout in HN as (t & Hl & _ & _ & _).
  destruct (startScores mfs r member) as [start|] eqn:Hstart.
  - rewrite (IncreaseScore_start _ _ _ _ _ Hstart). unfold updateAndStore.
    pose proof (startScores_length _ _ _ _ Hstart) as Hlen.
    pose proof (startScores_shiftable _ _ _ _ _ Hl Hstart) as Hsh.
    destruct (updateScores mfs start updates) as [scores | e |] eqn:Hu; simpl.
    + rewrite scoresToZScore_packSum.
      * by destruct (ZAdd r (name mfs) member _) as [[msg|] r'].
      * apply (updateScores_keeps shiftable mfs Hp) in Hu; [done | | done].
        intros f v k Hk Hin. apply (layout_lookup _ _ Hl) in Hk as [Hs _].
        by apply inRange_shiftable.
    + done.
    + by apply updateScores_not_Panic in Hu.
  - unfold startScores in Hstart. unfold IncreaseScore.
    by destruct (ZScore r (name mfs) member).
Qed.

Lemma ZAdd_other (r : redis) (key member key' member' : string) (score : float64) :
  key' ≠ key ∨ member' ≠ member →
  ZScore (snd (ZAdd r key member score)) key' member' = ZScore r key' member'.
Proof.
  intros Hne. unfold ZAdd, ZScore. destruct (writeFault r); [done|]. simpl.
  destruct (readFault r); [done|].
  destruct (decide (key' = key)) as [->|Hk].
  - rewrite lookup_insert_eq. simpl.
    destruct Hne as [? | Hm]; [done|].
    rewrite lookup_insert_ne by done.
    destruct (zsets r !! key) as [zs|]; simpl; [done|]. by rewrite lookup_empty.
  - by rewrite lookup_insert_ne.
Qed.

(** [IncreaseScore] and [ResetMember] write at most the score of their
    member in their own sorted set: every other member, and every other
    set, reads as before. *)
Theorem only_the_member_is_written (mfs : MultiFieldSet) (r : redis)
    (updates : list (string * float64)) (member key' member' : string) :
  key' ≠ name mfs ∨ member' ≠ member →
  ZScore (snd (IncreaseScore mfs r updates member)) key' member'
    = ZScore r key' member' ∧
  ZScore (snd (ResetMember mfs r member)) key' member' = ZScore r key' member'.
Proof.
  intros Hne. split.
  - unfold IncreaseScore.
    assert (∀ scores, ZScore (snd (updateAndStore mfs r scores updates member))
                        key' member' = ZScore r key' member') as Hup.
    { intros scores. unfold updateAndStore.
      destruct (updateScores mfs scores updates ≫= scoresToZScore mfs)
        as [z | e |]; [|done|done].
      pose proof (ZAdd_other r (name mfs) member key' member'
                    (float64_of_int64 (Int64 z)) Hne) as Hz.
      by destruct (ZAdd r (name mfs) member _) as [[msg|] r']. }
    destruct (ZScore r (name mfs) member); [apply Hup | done | apply Hup].
  - unfold ResetMember. destruct (defaultZScore mfs) as [z|]; [|done].
    pose proof (ZAdd_other r (name mfs) member key' member'
                  (float64_of_int64 (Int64 z)) Hne) as Hz.
    by destruct (ZAdd r (name mfs) member _) as [[msg|] r'].
Qed.

(** *** Reading what was written *)

(** A successful update in a codec of at most 53 bits, from an absent member
    or from a stored score in [0, 2^53): the updated vector is in range and
    is what the new stored score unpacks to. *)
Lemma IncreaseScore_safe (opts : MultiFieldSetOptions) (mfs : MultiFieldSet)
    (r r' : redis) (updates : list (string * float64)) (member : string) (z : Z) :
  New opts = Ok mfs →
  totalWidth (fields mfs) ≤ 53 →
  (∀ c, ZScore r (name mfs) member = ReplyScore c → 0 ≤ int64_of_float c < 2 ^ 53) →
  IncreaseScore mfs r updates member = (Ok z, r') →
  ∃ start scores : list Z,
    startScores mfs r member = Some start ∧
    updateScores mfs start updates = Ok scores ∧
    Forall2 inRange (fields mfs) scores ∧
    ZScore r' (name mfs) member = ReplyScore (float64_of_int64 (Int64 z)) ∧
    int64_of_float (float64_of_int64 (Int64 z)) = z ∧
    getFieldScores mfs (Some z) = scores.
Proof.
  intros HN Hw Hsafe H.
  pose proof (New_positionsOk _ _ HN) as Hp.
  apply New_layout in HN as (t & Hl & _ & _ & _).
  rewrite (layout_totalWidth _ _ Hl) in Hw.
  destruct (IncreaseScore_Ok_start _ _ _ _ _ _ H) as [start Hstart].
  pose proof (startScores_inRange _ _ _ _ _ Hl Hsafe Hstart) as Hall.
  pose proof (startScores_readFault _ _ _ _ Hstart) as Hrf.
  rewrite (IncreaseScore_start _ _ _ _ _ Hstart) in H.
  apply updateAndStore_inv in H as (scores & Hu & Hz & Hwf & ->).
  assert (Forall2 inRange (fields mfs) scores) as Hall'.
  { apply (updateScores_keeps inRange mfs Hp) in Hu; [done | | done]. auto. }
  rewrite scoresToZScore_packSum in Hz by (by apply (inRange_all_shiftable _ t)).
  injection Hz as <-.
  pose proof (packSum_bound _ _ Hl _ Hall') as Hb.
  assert (2 ^ t ≤ 2 ^ 53) by (apply Z.pow_le_mono_r; lia).
  exists start, scores. split; [done|]. split; [done|]. split; [done|].
  split; [by apply ZScore_ZAdd|]. split; [apply score_roundtrip; lia|].
  unfold getFieldScores. by apply (roundtrip_safe _ t).
Qed.

Lemma getFieldScores_lookup (mfs : MultiFieldSet) (n : string) (f : multiField)
    (zscore : option Z) :
  positionsOk mfs → GetFieldByName mfs n = Some f →
  getFieldScores mfs zscore !! position f = Some (extractFieldScore f zscore).
Proof.
  intros Hp Hf. apply (GetFieldByName_Some _ _ _ Hp) in Hf as [_ Hk].
  unfold getFieldScores. by rewrite list_lookup_fmap, Hk.
Qed.

Lemma GetScoreForField_existing (mfs : MultiFieldSet) (r : redis) (n member : string)
    (f : multiField) (c : float64) :
  GetFieldByName mfs n = Some f →
  ZScore r (name mfs) member = ReplyScore c →
  GetScoreForField mfs r n member
    = Ok (logical f (extractFieldScore f (Some (int64_of_float c)))).
Proof. intros Hf Hc. unfold GetScoreForField, logical. by rewrite Hf, Hc. Qed.

Lemma GetScoreForField_after (opts : MultiFieldSetOptions) (mfs : MultiFieldSet)
    (r r' : redis) (updates : list (string * float64)) (member n : string)
    (f : multiField) (z : Z) :
  New opts = Ok mfs →
  totalWidth (fields mfs) ≤ 53 →
  (∀ c, ZScore r (name mfs) member = ReplyScore c → 0 ≤ int64_of_float c < 2 ^ 53) →
  IncreaseScore mfs r updates member = (Ok z, r') →
  GetFieldByName mfs n = Some f →
  ∃ (start scores : list Z) (cur s : Z),
    startScores mfs r member = Some start ∧
    updateScores mfs start updates = Ok scores ∧
    start !! position f = Some cur ∧ scores !! position f = Some s ∧
    GetScoreForField mfs r' n member = Ok (logical f s).
Proof.
  intros HN Hw Hsafe H Hf.
  pose proof (New_positionsOk _ _ HN) as Hp.
  destruct (IncreaseScore_safe _ _ _ _ _ _ _ HN Hw Hsafe H)
    as (start & scores & Hstart & Hu & Hall & Hz & Hrt & Hget).
  pose proof (startScores_length _ _ _ _ Hstart) as Hlen.
  destruct (position_in_range _ _ _ start Hp Hlen Hf) as [cur Hcur].
  pose proof (getFieldScores_lookup mfs n f (Some z) Hp Hf) as Hs.
  rewrite Hget in Hs.
  exists start, scores, cur, (extractFieldScore f (Some z)).
  split; [done|]. split; [done|]. split; [done|]. split; [done|].
  rewrite (GetScoreForField_existing _ _ _ _ _ _ Hf Hz). by rewrite Hrt.
Qed.

Lemma logical_of_packed (d : Field) (f : multiField) (a : Z) :
  fieldOf d f → logical f (defaultScore f + a * multiplier f) = a.
Proof.
  intros (Htf & _ & Hm & _). unfold logical, defaultScore.
  rewrite Hm, Htf. destruct (Sort d =? Descending); lia.
Qed.

Lemma logical_add (d : Field) (f : multiField) (v a : Z) :
  fieldOf d f → logical f (v + a * multiplier f) = logical f v + a.
Proof.
  intros (Htf & _ & Hm & _). unfold logical.
  rewrite Hm, Htf. destruct (Sort d =? Descending); lia.
Qed.

Lemma field_fieldOf (opts : MultiFieldSetOptions) (mfs : MultiFieldSet) (n : string)
    (f : multiField) :
  New opts = Ok mfs → GetFieldByName mfs n = Some f → fieldOf (toField f) f.
Proof.
  intros HN Hf. pose proof (New_positionsOk _ _ HN) as Hp.
  apply New_layout in HN as (t & _ & Hof & _ & _).
  apply (GetFieldByName_Some _ _ _ Hp) in Hf as [_ Hk].
  destruct (Forall2_lookup_r _ _ _ _ _ Hof Hk) as (d & _ & Hd).
  destruct Hd as (Htf & ?). by rewrite Htf.
Qed.

(** Codecs of at most 53 bits, and a member that is absent or whose stored
    score converts to an integer in [0, 2^53): after a successful update, a
    field that was updated by the amount [a] reads as [int64(a)] if the
    member was absent before or the field's update type is Replace. *)
Theorem new_or_replaced_field_reads_amount (opts : MultiFieldSetOptions)
    (mfs : MultiFieldSet) (r r' : redis) (updates : list (string * float64))
    (member n : string) (a : float64) (f : multiField) (z : Z) :
  New opts = Ok mfs →
  totalWidth (fields mfs) ≤ 53 →
  (∀ c, ZScore r (name mfs) member = ReplyScore c → 0 ≤ int64_of_float c < 2 ^ 53) →
  NoDup (map fst updates) → (n, a) ∈ updates →
  GetFieldByName mfs n = Some f →
  ZScore r (name mfs) member = ReplyNil ∨ UpdateMode (toField f) = Replace →
  IncreaseScore mfs r updates member = (Ok z, r') →
  GetScoreForField mfs r' n member = Ok (int64_of_float a).
Proof.
  intros HN Hw Hsafe Hnd Hin Hf Hcase H.
  pose proof (New_positionsOk _ _ HN) as Hp.
  destruct (GetScoreForField_after _ _ _ _ _ _ _ _ _ HN Hw Hsafe H Hf)
    as (start & scores & cur & s & Hstart & Hu & Hcur & Hs & ->).
  pose proof (startScores_length _ _ _ _ Hstart) as Hlen.
  destruct (updateScores_at mfs n a f updates Hp Hf Hnd Hin start scores cur
              Hlen Hcur Hu) as (s' & Hnew & _ & Hs').
  assert (s' = s) as -> by congruence.
  assert (s = defaultScore f + int64_of_float a * multiplier f) as ->.
  { unfold newPackedValue in Hnew. destruct Hcase as [Hnil | Hrep].
    - assert (cur = defaultScore f) as ->.
      { unfold startScores in Hstart. rewrite Hnil in Hstart. injection Hstart as <-.
        apply (GetFieldByName_Some _ _ _ Hp) in Hf as [_ Hk].
        rewrite list_lookup_fmap, Hk in Hcur. by injection Hcur. }
      destruct (UpdateMode (toField f) =? Incremental); [congruence|].
      destruct (UpdateMode (toField f) =? Replace); congruence.
    - rewrite Hrep in Hnew. simpl in Hnew. congruence. }
  f_equal. apply (logical_of_packed (toField f)). by apply (field_fieldOf opts mfs n).
Qed.

(** Codecs of at most 53 bits: for an existing member whose stored score
    converts to an integer in [0, 2^53), a successful update of an
    Incremental field by [a] raises the value read for that field by
    [int64(a)], also for a Descending field. *)
Theorem incremental_update_adds_to_reading (opts : MultiFieldSetOptions)
    (mfs : MultiFieldSet) (r r' : redis) (updates : list (string * float64))
    (member n : string) (a c : float64) (f : multiField) (z : Z) :
  New opts = Ok mfs →
  totalWidth (fields mfs) ≤ 53 →
  ZScore r (name mfs) member = ReplyScore c →
  0 ≤ int64_of_float c < 2 ^ 53 →
  NoDup (map fst updates) → (n, a) ∈ updates →
  GetFieldByName mfs n = Some f →
  UpdateMode (toField f) = Incremental →
  IncreaseScore mfs r updates member = (Ok z, r') →
  ∃ old : Z,
    GetScoreForField mfs r n member = Ok old ∧
    GetScoreForField mfs r' n member = Ok (old + int64_of_float a).
Proof.
  intros HN Hw Hc Hc53 Hnd Hin Hf Hmode H.
  pose proof (New_positionsOk _ _ HN) as Hp.
  assert (∀ c', ZScore r (name mfs) member = ReplyScore c' →
                0 ≤ int64_of_float c' < 2 ^ 53) as Hsafe.
  { intros c' Hc'. rewrite Hc in Hc'. by injection Hc' as <-. }
  destruct (GetScoreForField_after _ _ _ _ _ _ _ _ _ HN Hw Hsafe H Hf)
    as (start & scores & cur & s & Hstart & Hu & Hcur & Hs & ->).
  pose proof (startScores_length _ _ _ _ Hstart) as Hlen.
  destruct (updateScores_at mfs n a f updates Hp Hf Hnd Hin start scores cur
              Hlen Hcur Hu) as (s' & Hnew & _ & Hs').
  assert (s' = s) as -> by congruence.
  unfold newPackedValue in Hnew. rewrite Hmode in Hnew. simpl in Hnew.
  injection Hnew as <-.
  unfold startScores in Hstart. rewrite Hc in Hstart. injection Hstart as <-.
  rewrite (getFieldScores_lookup _ n) in Hcur by done. injection Hcur as <-.
  eexists. split; [by apply GetScoreForField_existing|].
  f_equal. apply (logical_add (toField f)). by apply (field_fieldOf opts mfs n).
Qed.

(** Codecs of at most 53 bits: for an existing member whose stored score
    converts to an integer in [0, 2^53), a successful update leaves the
    reading of every field it does not name as it was. *)
Theorem unnamed_fields_keep_their_reading (opts : MultiFieldSetOptions)
    (mfs : MultiFieldSet) (r r' : redis) (updates : list (string * float64))
    (member n : string) (c : float64) (f : multiField) (z : Z) :
  New opts = Ok mfs →
  totalWidth (fields mfs) ≤ 53 →
  ZScore r (name mfs) member = ReplyScore c →
  0 ≤ int64_of_float c < 2 ^ 53 →
  GetFieldByName mfs n = Some f →
  n ∉ map fst updates →
  IncreaseScore mfs r updates member = (Ok z, r') →
  GetScoreForField mfs r' n member = GetScoreForField mfs r n member.
Proof.
  intros HN Hw Hc Hc53 Hf Hn H.
  pose proof (New_positionsOk _ _ HN) as Hp.
  assert (∀ c', ZScore r (name mfs) member = ReplyScore c' →
                0 ≤ int64_of_float c' < 2 ^ 53) as Hsafe.
  { intros c' Hc'. rewrite Hc in Hc'. by injection Hc' as <-. }
  destruct (GetScoreForField_after _ _ _ _ _ _ _ _ _ HN Hw Hsafe H Hf)
    as (start & scores & cur & s & Hstart & Hu & Hcur & Hs & ->).
  pose proof (startScores_length _ _ _ _ Hstart) as Hlen.
  destruct (updateScores_other mfs n f updates Hp Hf Hn start scores Hlen Hu)
    as [_ Hsame].
  rewrite Hs, Hcur in Hsame. injection Hsame as ->.
  unfold startScores in Hstart. rewrite Hc in Hstart. injection Hstart as <-.
  rewrite (getFieldScores_lookup _ n) in Hcur by done. injection Hcur as <-.
  symmetry. by apply GetScoreForField_existing.
Qed.

(** *** GetScores, GetScoreForField, ResetMember, MaxScoreWithFields *)

(** [GetScoreForField] returns the score that [GetScores] lists at the
    position of the field found by that name, and fails with the same
    client error. *)
Theorem GetScoreForField_agrees_with_GetScores (opts : MultiFieldSetOptions)
    (mfs : MultiFieldSet) (r : redis) (n member : string) (f : multiField) :
  New opts = Ok mfs →
  GetFieldByName mfs n = Some f →
  (∀ l : list fieldScore, GetScores mfs r member = Ok l →
     ∃ v : Z, GetScoreForField mfs r n member = Ok v ∧
              l !! position f = Some {| fsName := n; fsScore := v |}) ∧
  (∀ e : error, GetScores mfs r member = Err e →
     GetScoreForField mfs r n member = Err e).
Proof.
  intros HN Hf. pose proof (New_positionsOk _ _ HN) as Hp.
  destruct (GetFieldByName_Some _ _ _ Hp Hf) as [Hname Hk].
  unfold GetScores, GetScoreForField, zscoreToAllFieldScores. rewrite Hf.
  destruct (ZScore r (name mfs) member) as [| msg | c]; split; try done.
  - intros l [= <-]. eexists. split; [done|].
    by rewrite list_lookup_fmap, Hk, <- Hname.
  - by intros e [= <-].
  - intros l [= <-]. eexists. split; [done|].
    by rewrite list_lookup_fmap, Hk, <- Hname.
Qed.

(** In a codec of at most 53 bits a reset member reads 0 in every field,
    whereas an absent member reads the packed default of every field
    (maxAbsolute for a Descending field). *)
Theorem reset_member_reads_zero (opts : MultiFieldSetOptions) (mfs : MultiFieldSet)
    (r : redis) (member : string) :
  New opts = Ok mfs →
  totalWidth (fields mfs) ≤ 53 →
  readFault r = None → writeFault r = None →
  ∃ r' : redis,
    ResetMember mfs r member = (Ok tt, r') ∧
    GetScores mfs r' member
      = Ok (map (fun f => {| fsName := Name (toField f); fsScore := 0 |}) (fields mfs)) ∧
    (ZScore r (name mfs) member = ReplyNil →
     GetScores mfs r member
       = Ok (map (fun f => {| fsName := Name (toField f);
                              fsScore := if Sort (toField f) =? Descending
                                         then maxAbsolute f else 0 |})
               (fields mfs))).
Proof.
  intros HN Hw Hrf Hwf.
  destruct (New_defaultZScore _ _ HN) as (dz & Hdz & Hpack).
  apply New_layout in HN as (t & Hl & _ & _ & _).
  rewrite (layout_totalWidth _ _ Hl) in Hw.
  assert (Forall2 inRange (fields mfs) (map defaultScore (fields mfs))) as Hall.
  { apply Forall2_fmap_r, Forall_Forall2_diag, Forall_forall.
    intros f Hin. apply list_elem_of_lookup in Hin as [k Hk].
    apply (layout_lookup _ _ Hl) in Hk as [Hs _]. by apply inRange_defaultScore. }
  rewrite scoresToZScore_packSum in Hpack by (by apply (inRange_all_shiftable _ t)).
  injection Hpack as <-.
  pose proof (packSum_bound _ _ Hl _ Hall) as Hb.
  assert (2 ^ t ≤ 2 ^ 53) by (apply Z.pow_le_mono_r; lia).
  eexists. split; [|split].
  - unfold ResetMember. rewrite Hdz. unfold ZAdd. rewrite Hwf. reflexivity.
  - unfold GetScores.
    pose proof (ZScore_ZAdd r (name mfs) member
                  (float64_of_int64
                     (Int64 (packSum (fields mfs) (map defaultScore (fields mfs)))))
                  Hrf Hwf) as Hz.
    unfold ZAdd in Hz. rewrite Hwf in Hz. simpl in Hz. rewrite Hz.
    rewrite score_roundtrip by lia. f_equal.
    unfold zscoreToAllFieldScores. apply list_eq. intros k.
    rewrite !list_lookup_fmap.
    destruct (fields mfs !! k) as [f|] eqn:Hk; [|done]. simpl. do 2 f_equal.
    pose proof (roundtrip_safe _ _ _ Hl Hw Hall) as Hrt.
    apply (f_equal (fun l => l !! k)) in Hrt.
    rewrite !list_lookup_fmap, Hk in Hrt. simpl in Hrt. injection Hrt as ->.
    unfold defaultScore. destruct (Sort (toField f) =? Descending); lia.
  - intros Hnil. unfold GetScores. by rewrite Hnil.
Qed.

(** In a codec of at most 53 bits an update of a member that was absent and
    has been reset gives what the update of the absent member gives: the
    same result and, when it succeeds, the same store. *)
Theorem reset_member_updates_as_absent (opts : MultiFieldSetOptions)
    (mfs : MultiFieldSet) (r r0 : redis) (updates : list (string * float64))
    (member : string) :
  New opts = Ok mfs →
  totalWidth (fields mfs) ≤ 53 →
  ZScore r (name mfs) member = ReplyNil →
  ResetMember mfs r member = (Ok tt, r0) →
  fst (IncreaseScore mfs r0 updates member) = fst (IncreaseScore mfs r updates member) ∧
  (isOk (fst (IncreaseScore mfs r updates member)) = true →
   snd (IncreaseScore mfs r0 updates member) = snd (IncreaseScore mfs r updates member)).
Proof.
  intros HN Hw Hnil Hreset.
  destruct (New_defaultZScore _ _ HN) as (dz & Hdz & Hpack).
  apply New_layout in HN as (t & Hl & _ & _ & _).
  rewrite (layout_totalWidth _ _ Hl) in Hw.
  assert (Forall2 inRange (fields mfs) (map defaultScore (fields mfs))) as Hall.
  { apply Forall2_fmap_r, Forall_Forall2_diag, Forall_forall.
    intros f Hin. apply list_elem_of_lookup in Hin as [k Hk].
    apply (layout_lookup _ _ Hl) in Hk as [Hs _]. by apply inRange_defaultScore. }
  rewrite scoresToZScore_packSum in Hpack by (by apply (inRange_all_shiftable _ t)).
  injection Hpack as <-.
  pose proof (packSum_bound _ _ Hl _ Hall) as Hb.
  assert (2 ^ t ≤ 2 ^ 53) by (apply Z.pow_le_mono_r; lia).
  assert (readFault r = None) as Hrf.
  { unfold ZScore in Hnil. by destruct (readFault r). }
  unfold ResetMember in Hreset. rewrite Hdz in Hreset.
  assert (writeFault r = None) as Hwf.
  { unfold ZAdd in Hreset. by destruct (writeFault r). }
  assert (r0 = snd (ZAdd r (name mfs) member
                      (float64_of_int64
                         (Int64 (packSum (fields mfs) (map defaultScore (fields mfs)))))))
    as ->.
  { destruct (ZAdd r (name mfs) member _) as [[msg|] r1]; [done|]. by injection Hreset. }
  set (dzf := float64_of_int64
                (Int64 (packSum (fields mfs) (map defaultScore (fields mfs))))) in *.
  assert (startScores mfs (snd (ZAdd r (name mfs) member dzf)) member
          = Some (map defaultScore (fields mfs))) as Hstart0.
  { unfold startScores. rewrite ZScore_ZAdd by done. subst dzf.
    rewrite score_roundtrip by lia.
    unfold getFieldScores. by rewrite (roundtrip_safe _ _ _ Hl Hw Hall). }
  assert (startScores mfs r member = Some (map defaultScore (fields mfs))) as Hstart.
  { unfold startScores. by rewrite Hnil. }
  rewrite (IncreaseScore_start _ _ _ _ _ Hstart0), (IncreaseScore_start _ _ _ _ _ Hstart).
  unfold updateAndStore.
  destruct (updateScores mfs (map defaultScore (fields mfs)) updates
              ≫= scoresToZScore mfs) as [z | e |]; [|done|done].
  assert (∀ r1 s, writeFault r1 = None →
            ZAdd r1 (name mfs) member s = (None, snd (ZAdd r1 (name mfs) member s)))
    as Hadd.
  { intros r1 s Hw1. unfold ZAdd. by rewrite Hw1. }
  assert (writeFault (snd (ZAdd r (name mfs) member dzf)) = None) as Hwf0.
  { unfold ZAdd. by rewrite Hwf. }
  rewrite (Hadd _ (float64_of_int64 (Int64 z)) Hwf0),
          (Hadd _ (float64_of_int64 (Int64 z)) Hwf). simpl.
  split; [done|]. intros _. by apply ZAdd_ZAdd.
Qed.

Lemma applyLimits_as_updateScores (mfs : MultiFieldSet)
    (updates : list (string * float64)) :
  positionsOk mfs → NoDup (map fst updates) →
  ∀ scores scores' : list Z,
    length scores = length (fields mfs) →
    (∀ n v f, (n, v) ∈ updates → GetFieldByName mfs n = Some f →
              scores !! position f = Some (defaultScore f)) →
    updateScores mfs scores updates = Ok scores' →
    applyLimits mfs scores updates = Ok scores'.
Proof.
  intros Hp. induction updates as [|[n0 v0] rest IH];
    intros Hnd scores scores' Hlen Hdef H; [done|].
  simpl in Hnd. apply NoDup_cons in Hnd as [Hn0 Hnd].
  simpl in H. apply bind_Ok in H as (scores1 & H1 & H).
  apply updateField_Ok in H1 as (f0 & cur & s & Hf0 & Hcur & Hs & _ & ->);
    [|done|done].
  assert (cur = defaultScore f0) as ->.
  { specialize (Hdef n0 v0 f0 ltac:(by apply elem_of_cons; left) Hf0). congruence. }
  assert (s = defaultScore f0 + int64_of_float v0 * multiplier f0) as ->.
  { unfold newPackedValue in Hs.
    destruct (UpdateMode (toField f0) =? Incremental); [congruence|].
    destruct (UpdateMode (toField f0) =? Replace); congruence. }
  simpl. unfold limitField. rewrite Hf0, Hcur. simpl.
  apply IH; [done | by rewrite length_insert | | done].
  intros n v f Hin Hf.
  rewrite list_lookup_insert_ne; [by apply (Hdef n v); [apply elem_of_cons; right|]|].
  apply (distinct_names_distinct_positions mfs n0 n); [done | done | done |].
  intros ->. apply Hn0. apply list_elem_of_fmap. by exists (n, v).
Qed.

(** [MaxScoreWithFields] without limits is the default scalar, and with
    limits it is the scalar that [IncreaseScore] returns when it applies
    the same amounts to an absent member and succeeds. *)
Theorem MaxScoreWithFields_as_new_member (opts : MultiFieldSetOptions)
    (mfs : MultiFieldSet) :
  New opts = Ok mfs →
  (∃ dz : Z, defaultZScore mfs = Some dz ∧ MaxScoreWithFields mfs [] = Ok dz) ∧
  (∀ (r r' : redis) (updates : list (string * float64)) (member : string) (z : Z),
     NoDup (map fst updates) →
     ZScore r (name mfs) member = ReplyNil →
     IncreaseScore mfs r updates member = (Ok z, r') →
     MaxScoreWithFields mfs updates = Ok z).
Proof.
  intros HN. pose proof (New_positionsOk _ _ HN) as Hp. split.
  - destruct (New_defaultZScore _ _ HN) as (dz & Hdz & Hpack). by exists dz.
  - intros r r' updates member z Hnd Hnil H.
    unfold IncreaseScore in H. rewrite Hnil in H.
    apply updateAndStore_inv in H as (scores & Hu & Hz & _ & _).
    unfold MaxScoreWithFields.
    rewrite (applyLimits_as_updateScores mfs updates Hp Hnd _ scores); [done | | | done].
    + apply length_map.
    + intros n v f _ Hf. apply (GetFieldByName_Some _ _ _ Hp) in Hf as [_ Hk].
      by rewrite list_lookup_fmap, Hk.
Qed.

(** *** Names, field information, CalculateScoresFromZScore *)

Lemma find_first {A} (p : A → bool) (l : list A) (x : A) :
  List.find p l = Some x →
  ∃ k : nat, l !! k = Some x ∧ p x = true ∧
             ∀ (j : nat) (y : A), (j < k)%nat → l !! j = Some y → p y = false.
Proof.
  induction l as [|a l IH]; [done|]. simpl.
  destruct (p a) eqn:Hp.
  - intros [= <-]. exists 0%nat. split; [done|]. split; [done|]. intros j y Hj. lia.
  - intros H. destruct (IH H) as (k & Hk & Hx & Hfirst).
    exists (S k). split; [done|]. split; [done|].
    intros [|j] y Hj Hy; simpl in Hy; [by injection Hy as <-|].
    apply (Hfirst j); [lia | done].
Qed.

Lemma declared_names (opts : MultiFieldSetOptions) (mfs : MultiFieldSet) :
  New opts = Ok mfs →
  map (fun f => Name (toField f)) (fields mfs) = map Name (optFields opts).
Proof.
  intros HN. apply New_layout in HN as (t & _ & Hof & _ & _).
  induction Hof as [|d f ds fs Hd _ IH]; [done|].
  simpl. destruct Hd as [-> _]. by rewrite IH.
Qed.

(** [GetFieldByName] finds nothing exactly for the names that were not
    declared; what it finds is the first field of that name; when the
    declared names are distinct it finds every field by its name. *)
Theorem GetFieldByName_finds_declared_fields (opts : MultiFieldSetOptions)
    (mfs : MultiFieldSet) :
  New opts = Ok mfs →
  (∀ n : string, GetFieldByName mfs n = None ↔ n ∉ map Name (optFields opts)) ∧
  (∀ (n : string) (f : multiField), GetFieldByName mfs n = Some f →
     Name (toField f) = n ∧ fields mfs !! position f = Some f ∧
     ∀ (j : nat) (g : multiField),
       fields mfs !! j = Some g → Name (toField g) = n → (position f ≤ j)%nat) ∧
  (NoDup (map Name (optFields opts)) →
   ∀ (k : nat) (f : multiField), fields mfs !! k = Some f →
     GetFieldByName mfs (Name (toField f)) = Some f).
Proof.
  intros HN. pose proof (New_positionsOk _ _ HN) as Hp.
  pose proof (declared_names _ _ HN) as Hnames.
  assert (∀ (n : string) (f : multiField), GetFieldByName mfs n = Some f →
            Name (toField f) = n ∧ fields mfs !! position f = Some f ∧
            ∀ (j : nat) (g : multiField),
              fields mfs !! j = Some g → Name (toField g) = n → (position f ≤ j)%nat)
    as Hfirst.
  { intros n f Hf. destruct (GetFieldByName_Some _ _ _ Hp Hf) as [Hn Hk].
    split; [done|]. split; [done|]. intros j g Hj Hg.
    apply find_first in Hf as (k & Hk' & _ & Hmin).
    rewrite (Hp k f Hk'). destruct (decide (k ≤ j)%nat) as [|Hlt]; [done|].
    specialize (Hmin j g ltac:(lia) Hj).
    apply bool_decide_eq_false in Hmin. done. }
  assert (∀ n : string, GetFieldByName mfs n = None ↔ n ∉ map Name (optFields opts))
    as Hnone.
  { intros n. rewrite <- Hnames. unfold GetFieldByName. split.
    - intros H Hin. apply list_elem_of_fmap in Hin as (f & -> & Hin).
      apply list_elem_of_In in Hin.
      pose proof (find_none _ _ H f Hin) as Hf. simpl in Hf.
      by apply bool_decide_eq_false in Hf.
    - intros H. destruct (List.find _ (fields mfs)) as [f|] eqn:Hf; [|done].
      apply find_some in Hf as [Hin Hn]. apply bool_decide_eq_true in Hn.
      destruct H. apply list_elem_of_fmap. exists f. split; [done|].
      by apply list_elem_of_In. }
  split; [done|]. split; [done|].
  intros Hnd k f Hk.
  destruct (GetFieldByName mfs (Name (toField f))) as [g|] eqn:Hg.
  - destruct (Hfirst _ _ Hg) as (Hn & Hpos & _).
    rewrite <- Hnames in Hnd.
    assert (position g = k) as Heq.
    { apply (NoDup_lookup _ _ _ (Name (toField f)) Hnd).
      - by rewrite list_lookup_fmap, Hpos, <- Hn.
      - by rewrite list_lookup_fmap, Hk. }
    rewrite Heq in Hpos. congruence.
  - apply Hnone in Hg. destruct Hg. rewrite <- Hnames.
    apply list_elem_of_fmap. exists f. split; [done|].
    apply list_elem_of_lookup. by exists k.
Qed.

(** [GetFieldsInfo] lists the declarations in their order, each with its
    position, its update type by name, and a maximum and default that
    follow from its width. *)
Theorem GetFieldsInfo_lists_declarations (opts : MultiFieldSetOptions)
    (mfs : MultiFieldSet) :
  New opts = Ok mfs →
  length (GetFieldsInfo mfs) = length (optFields opts) ∧
  ∀ (k : nat) (d : Field), optFields opts !! k = Some d →
    ∃ info : FieldInfo,
      GetFieldsInfo mfs !! k = Some info ∧
      infoName info = Name d ∧ infoSort info = Sort d ∧
      infoMaxValue info = MaxValue d ∧ infoPosition info = k ∧
      infoIsMain info = IsInf1 (MaxValue d) ∧
      infoUpdateType info
        = (if UpdateMode d =? 1 then "INCREMENTAL"
           else if UpdateMode d =? 2 then "REPLACE" else "UNKNOWN") ∧
      infoMaxAbsolute info = 2 ^ infoBits info - 1 ∧
      infoDefaultScore info
        = (if Sort d =? -1 then infoMaxAbsolute info else 0).
Proof.
  intros HN. apply New_layout in HN as (t & Hl & Hof & Hp & _).
  unfold GetFieldsInfo. split.
  - rewrite length_map. symmetry. by apply Forall2_length in Hof.
  - intros k d Hd.
    destruct (Forall2_lookup_l _ _ _ _ _ Hof Hd) as (f & Hk & Htf & Hmain & _).
    apply (layout_lookup _ _ Hl) in Hk as Hs. destruct Hs as [Hs _].
    exists (getInfo f). rewrite list_lookup_fmap, Hk.
    unfold getInfo, updateTypeName, defaultScore. simpl. rewrite Htf.
    repeat (split; [done|]). split; [by apply Hp|]. split; [done|].
    split; [done|]. split; [|done].
    rewrite (slot_max _ Hs), Z.ones_equiv. lia.
Qed.

Lemma foldl_insert_lookup (key : multiField → string) (val : multiField → Z)
    (n : string) (l : list multiField) :
  NoDup (map key l) →
  ∀ acc : gmap string Z,
    foldl (fun result f => <[key f := val f]> result) acc l !! n
    = match List.find (fun f => bool_decide (key f = n)) l with
      | Some f => Some (val f)
      | None => acc !! n
      end.
Proof.
  induction l as [|f l IH]; intros Hnd acc; [done|].
  simpl in Hnd. apply NoDup_cons in Hnd as [Hf Hnd]. simpl.
  rewrite (IH Hnd). destruct (decide (key f = n)) as [Heq|Hne].
  - rewrite (bool_decide_eq_true_2 _ Heq).
    destruct (List.find _ l) as [g|] eqn:Hg.
    + apply find_some in Hg as [Hin Hn]. apply bool_decide_eq_true in Hn.
      destruct Hf. rewrite Heq, <- Hn. apply list_elem_of_fmap.
      exists g. split; [done|]. by apply list_elem_of_In.
    + by rewrite <- Heq, lookup_insert_eq.
  - rewrite (bool_decide_eq_false_2 _ Hne).
    destruct (List.find _ l); [done|]. by rewrite lookup_insert_ne.
Qed.

(** With distinct field names, [CalculateScoresFromZScore] maps a name to
    what [GetScoreForField] reads for a member that holds the score, and
    has no entry for the names [GetScoreForField] does not find; for a nil
    score every entry is 0. *)
Theorem CalculateScoresFromZScore_agrees (opts : MultiFieldSetOptions)
    (mfs : MultiFieldSet) :
  New opts = Ok mfs →
  NoDup (map Name (optFields opts)) →
  (∀ (r : redis) (member n : string) (c : float64),
     ZScore r (name mfs) member = ReplyScore c →
     GetScoreForField mfs r n member
     = match CalculateScoresFromZScore mfs (Some (int64_of_float c)) !! n with
       | Some v => Ok v
       | None => Err (ErrFieldNotFound n)
       end) ∧
  (∀ (n : string) (v : Z), CalculateScoresFromZScore mfs None !! n = Some v → v = 0).
Proof.
  intros HN Hnd. rewrite <- (declared_names _ _ HN) in Hnd.
  split.
  - intros r member n c Hc. unfold CalculateScoresFromZScore.
    rewrite (foldl_insert_lookup (fun f => Name (toField f))
               (fun f => if Sort (toField f) =? Descending
                         then maxAbsolute f
                              - extractFieldScore f (Some (int64_of_float c))
                         else extractFieldScore f (Some (int64_of_float c)))
               n (fields mfs) Hnd ∅).
    unfold GetScoreForField, GetFieldByName.
    destruct (List.find _ (fields mfs)) as [f|]; [by rewrite Hc | done].
  - intros n v. unfold CalculateScoresFromZScore.
    rewrite (foldl_insert_lookup (fun f => Name (toField f))
               (fun f => if Sort (toField f) =? Descending
                         then maxAbsolute f - extractFieldScore f None
                         else extractFieldScore f None)
               n (fields mfs) Hnd ∅).
    destruct (List.find _ (fields mfs)) as [f|]; [|done].
    unfold extractFieldScore, defaultScore. intros [= <-].
    destruct (Sort (toField f) =? Descending); lia.
Qed.

(** *** The example GameLeaderboard *)

Lemma NewGameLeaderboard_gameSet (n : string) (c : UniversalClient) :
  n ≠ "" → NewGameLeaderboard (Some c) n = Ok {| mfs := gameSet n c |}.
Proof.
  intros Hn. unfold NewGameLeaderboard, New. simpl optName.
  rewrite (bool_decide_eq_false_2 _ Hn). vm_compute. reflexivity.
Qed.

(** [NewGameLeaderboard] builds a codec of 20 + 14 + 20 = 54 bits, one more
    than a float64 score holds exactly; its default scalar is 2^54 - 1. *)
Theorem game_leaderboard_is_54_bits (n : string) (c : UniversalClient) :
  n ≠ "" →
  ∃ gl : GameLeaderboard,
    NewGameLeaderboard (Some c) n = Ok gl ∧
    map (fun f => (Name (toField f), bits f, shiftValue f)) (fields (mfs gl))
      = [("points", 20, 34); ("wins", 14, 20); ("playtime", 20, 0)] ∧
    totalWidth (fields (mfs gl)) = 54 ∧
    defaultZScore (mfs gl) = Some (2 ^ 54 - 1) ∧
    float64_of_int64 (Int64 (2 ^ 54 - 1)) = Finite (2 ^ 53) 1.
Proof.
  intros Hn. eexists. split; [by apply NewGameLeaderboard_gameSet|].
  split; [reflexivity|]. split; [reflexivity|]. split; reflexivity.
Qed.

(** The first [AddWin] for a player who is not in the set succeeds, and the
    player then reads wins = 0 and playtime = 1048575: the scalar
    2^54 - 1 - 2^20 is stored as the float64 2^54 - 2^20. *)
Theorem first_win_is_lost (n player : string) (c : UniversalClient)
    (gl : GameLeaderboard) (r : redis) :
  n ≠ "" →
  NewGameLeaderboard (Some c) n = Ok gl →
  ZScore r n player = ReplyNil →
  writeFault r = None →
  ∃ r' : redis,
    AddWin gl r player = (Ok tt, r') ∧
    GetScores (mfs gl) r' player
      = Ok [ {| fsName := "points"; fsScore := 0 |};
             {| fsName := "wins"; fsScore := 0 |};
             {| fsName := "playtime"; fsScore := 1048575 |} ].
Proof.
  intros Hn Hgl Hnil Hwf.
  rewrite (NewGameLeaderboard_gameSet n c Hn) in Hgl. injection Hgl as <-.
  assert (readFault r = None) as Hrf.
  { unfold ZScore in Hnil. by destruct (readFault r). }
  eexists. split.
  - unfold AddWin, errorOnly, IncreaseScore. cbn [mfs name gameSet]. rewrite Hnil.
    erewrite (updateAndStore_Ok _ _ _ _ _ _ (2 ^ 54 - 1 - 2 ^ 20));
      [reflexivity | vm_compute; reflexivity | vm_compute; reflexivity | done].
  - unfold GetScores. cbn [mfs name gameSet snd].
    rewrite ZScore_ZAdd by done. vm_compute. reflexivity.
Qed.

End Codec.

(** ** The properties at concrete inputs *)

Lemma position_is_declaration_index_witness :
  New refPlatform killsDeaths = Ok killsDeathsSet ∧
  ∀ (k : nat) (f : multiField), fields killsDeathsSet !! k = Some f →
    position f = k ∧ optFields killsDeaths !! k = Some (toField f).
Proof.
  split; [vm_compute; reflexivity|].
  apply (position_is_declaration_index refPlatform killsDeaths killsDeathsSet).
  vm_compute; reflexivity.
Defined.

(** C5 as stated fails: the last-declared field of [killsDeaths], the least
    significant one (shift 0), has position 1, not 0; position 0 is the
    most significant field. *)
Lemma position_not_storage_order :
  New refPlatform killsDeaths = Ok killsDeathsSet ∧
  last (fields killsDeathsSet) = Some deathsField ∧
  shiftValue deathsField = 0 ∧
  position deathsField = 1%nat ∧ position deathsField ≠ 0%nat ∧
  position killsField = 0%nat ∧ shiftValue killsField = 14.
Proof.
  split; [vm_compute; reflexivity|].
  do 3 (split; [reflexivity|]). split; [discriminate|]. split; reflexivity.
Qed.

Lemma descending_primary_order_witness :
  New refPlatform killsDeaths = Ok killsDeathsSet ∧
  ∃ zX zY : Z,
    scoresToZScore killsDeathsSet [packed killsField 7; packed deathsField 3] = Ok zX ∧
    scoresToZScore killsDeathsSet [packed killsField 5; packed deathsField 3] = Ok zY ∧
    zX < zY ∧
    float_ltb (storedScore zX) (storedScore zY) = true.
Proof.
  split; [vm_compute; reflexivity|].
  destruct (descending_primary_order refPlatform killsDeaths _ _ killsDeathsSet
              eq_refl eq_refl eq_refl ltac:(vm_compute; reflexivity))
    as (fA & fB & Hfs & _ & _ & Hord).
  injection Hfs as <- <-.
  destruct (Hord 7 5 3) as (_ & _ & zX & zY & HX & HY & Hlt & Hstore);
    [lia | lia | vm_compute; discriminate | split; vm_compute; discriminate |].
  exists zX, zY. split; [exact HX|]. split; [exact HY|]. split; [exact Hlt|].
  apply Hstore. vm_compute. discriminate.
Defined.

(** In a codec of 64 bits the order in the store is the reverse: in
    [wideOrder], A = 2^62 packs to 2^63 - 2 and is written as 2^63, A = 0
    packs to 2^64 - 2 and is written as -2. *)
Lemma stored_order_reversed_at_64_bits :
  ∃ (mfs : MultiFieldSet) (fA fB : multiField) (zX zY : Z),
    New refPlatform wideOrder = Ok mfs ∧
    fields mfs = [fA; fB] ∧
    Sort (toField fA) = Descending ∧ Sort (toField fB) = Ascending ∧
    totalWidth (fields mfs) = 64 ∧
    0 ≤ 0 < 2 ^ 62 ∧ 2 ^ 62 ≤ maxAbsolute fA ∧ inRange fB 0 ∧
    scoresToZScore mfs [packed fA (2 ^ 62); packed fB 0] = Ok zX ∧
    scoresToZScore mfs [packed fA 0; packed fB 0] = Ok zY ∧
    zX = 2 ^ 63 - 2 ∧ zY = 2 ^ 64 - 2 ∧ zX < zY ∧
    storedScore zX = Finite (2 ^ 53) 10 ∧
    storedScore zY = Finite (-2) 0 ∧
    float_ltb (storedScore zX) (storedScore zY) = false ∧
    float_ltb (storedScore zY) (storedScore zX) = true.
Proof.
  eexists _, _, _, _, _. split; [vm_compute; reflexivity|].
  split; [reflexivity|]. split; [reflexivity|]. split; [reflexivity|].
  split; [reflexivity|]. split; [lia|].
  split; [vm_compute; discriminate|]. split; [split; vm_compute; discriminate|].
  split; [vm_compute; reflexivity|]. split; [vm_compute; reflexivity|].
  split; [reflexivity|]. split; [reflexivity|]. split; [reflexivity|].
  split; [vm_compute; reflexivity|]. split; [vm_compute; reflexivity|].
  split; vm_compute; reflexivity.
Qed.

Lemma kills_deaths_scenario_witness :
  ∃ z : Z,
    IncreaseScore refPlatform killsDeathsSet emptyStore
      [("kills", Finite 5 0); ("deaths", Finite 2 0)] "player1"
    = (Ok z, snd (ZAdd emptyStore "leaderboard" "player1" (Finite z 0))) ∧
    zscoreToAllFieldScores killsDeathsSet z =
      [ {| fsName := "kills"; fsScore := 5 |}; {| fsName := "deaths"; fsScore := 2 |} ].
Proof.
  destruct (kills_deaths_scenario refPlatform emptyStore "player1" eq_refl eq_refl)
    as (_ & _ & _ & _ & _ & _ & z & Hup & _ & _ & Hshow).
  exists z. split; [|exact Hshow].
  apply Hup. by left.
Defined.

(** The unbounded field of [mainFirst], as [New] leaves it: 45 bits at
    shift 8 under a mask of 61 bits. *)
Lemma mainFirst_mask :
  ∃ (mfs : MultiFieldSet) (m : multiField),
    New refPlatform mainFirst = Ok mfs ∧ fields mfs !! 0%nat = Some m ∧
    isMain m = true ∧ shiftValue m = 8 ∧ bits m = 45 ∧
    mask m = Z.shiftl (2 ^ 53 - 1) 8 ∧ BitLen (mask m) = 61.
Proof.
  eexists _, _. split; [vm_compute; reflexivity|].
  split; [reflexivity|]. do 4 (split; [reflexivity|]). reflexivity.
Qed.

Lemma setIndex_main_mask_not_truncated_witness :
  ∃ mf : multiField,
    setIndex 0 8 (freshField refPlatform (unboundedField "m")) = Ok mf ∧
    bits mf = 45 ∧ mask mf = Z.shiftl (2 ^ 53 - 1) 8 ∧
    mask mf ≠ Z.shiftl (2 ^ 45 - 1) 8.
Proof.
  destruct (setIndex_main_mask_not_truncated refPlatform (unboundedField "m") 0 8
              eq_refl ltac:(lia))
    as (mf & Hset & Hb & _ & Hm & _ & _ & Hne).
  exists mf. split; [exact Hset|]. split; [exact Hb|]. split; [exact Hm | exact Hne].
Defined.

Lemma replace_relative_to_default_witness :
  New refPlatform levelThenBonus = Ok levelThenBonusSet ∧
  ∃ start scores : list Z,
    startScores refPlatform levelThenBonusSet (storeWith "player1" (Finite 300 0))
      "player1" = Some start ∧
    updateScores refPlatform levelThenBonusSet start [("level", Finite 7 0)]
      = Ok scores ∧
    scores !! position levelField
      = Some (defaultScore levelField + 7 * multiplier levelField) ∧
    scoresToZScore levelThenBonusSet scores = Ok 30764.
Proof.
  split; [vm_compute; reflexivity|].
  apply (replace_relative_to_default refPlatform levelThenBonus levelThenBonusSet
           (storeWith "player1" (Finite 300 0))
           (snd (ZAdd (storeWith "player1" (Finite 300 0)) "leaderboard" "player1"
                   (Finite 30764 0)))
           [("level", Finite 7 0)] "player1" "level" (Finite 7 0) levelField 30764).
  - vm_compute; reflexivity.
  - apply NoDup_singleton.
  - apply list_elem_of_here.
  - vm_compute; reflexivity.
  - reflexivity.
  - vm_compute; reflexivity.
Defined.

Lemma out_of_range_aborts_witness :
  New refPlatform killsDeaths = Ok killsDeathsSet ∧
  ∃ e : error,
    IncreaseScore refPlatform killsDeathsSet emptyStore
      [("kills", Finite 2 0); ("deaths", Finite (-1) 0)] "player1"
    = (Err e, emptyStore) ∧
    ∃ s' n', e = ErrOutOfRange s' n'.
Proof.
  split; [vm_compute; reflexivity|].
  destruct (out_of_range_aborts refPlatform killsDeaths killsDeathsSet emptyStore
              [("kills", Finite 2 0); ("deaths", Finite (-1) 0)] "player1")
    as [Hrange _].
  - vm_compute; reflexivity.
  - apply NoDup_cons. split; [|apply NoDup_singleton].
    intros Hin. apply list_elem_of_singleton in Hin. discriminate Hin.
  - destruct (Hrange [16383; 0] "deaths" (Finite (-1) 0) deathsField 0 (-1))
      as (e & He & Hkind).
    + vm_compute; reflexivity.
    + apply list_elem_of_further, list_elem_of_here.
    + vm_compute; reflexivity.
    + reflexivity.
    + vm_compute; reflexivity.
    + left. lia.
    + exists e. split; [exact He|]. apply Hkind.
      intros n' v' Hin.
      apply elem_of_cons in Hin as [[= -> ->] | Hin].
      * exists killsField. split; [vm_compute; reflexivity | by left].
      * apply list_elem_of_singleton in Hin as [= -> ->].
        exists deathsField. split; [vm_compute; reflexivity | by left].
Defined.

(** C4 as stated fails twice.  Incrementing deaths (declared maximum 10000)
    to 10001 does not fail: the value fits the 14-bit slot, is stored and
    read back.  And an out-of-range update that is iterated after an update
    of an unknown field fails with the field-not-found error, not with the
    out-of-range error. *)
Lemma range_rejection_as_stated_fails :
  New refPlatform killsDeaths = Ok killsDeathsSet ∧
  MaxValue (toField deathsField) = Finite 10000 0 ∧
  (∃ (z : Z) (r' : redis),
     IncreaseScore refPlatform killsDeathsSet emptyStore
       [("deaths", Finite 10001 0)] "player1" = (Ok z, r') ∧
     extractFieldScore deathsField (Some z) = 10001 ∧
     ZScore r' "leaderboard" "player1" = ReplyScore (Finite z 0)) ∧
  IncreaseScore refPlatform killsDeathsSet emptyStore
    [("wins", Finite 1 0); ("deaths", Finite (-1) 0)] "player1"
  = (Err (ErrFieldNotFound "wins"), emptyStore).
Proof.
  split; [vm_compute; reflexivity|]. split; [reflexivity|].
  split; [|vm_compute; reflexivity].
  eexists _, _. split; [vm_compute; reflexivity|].
  split; vm_compute; reflexivity.
Qed.

Lemma incremental_additive_witness :
  New refPlatform killsDeaths = Ok killsDeathsSet ∧
  ∃ (z2 : Z) (r2 : redis),
    IncreaseScore refPlatform killsDeathsSet emptyStore
      [("kills", Finite 150 0)] "player1" = (Ok z2, r2).
Proof.
  split; [vm_compute; reflexivity|].
  eexists _, _.
  eapply (incremental_additive refPlatform killsDeaths killsDeathsSet emptyStore
            _ _ "player1" "kills" killsField).
  - vm_compute; reflexivity.
  - vm_compute; discriminate.
  - vm_compute; reflexivity.
  - reflexivity.
  - intros s Hs. vm_compute in Hs. discriminate Hs.
  - vm_compute; reflexivity.
  - vm_compute; reflexivity.
Defined.

(** C9 as stated fails: with one 61-bit Incremental field and a member whose
    score is 2^55, the update +100 is stored as the float64 nearest to
    2^55 + 100, which is 2^55 + 96; the update +50 then gives 2^55 + 146,
    the single update +150 gives 2^55 + 150.  All values are in range. *)
Lemma additivity_lost_above_53_bits :
  ∃ (mfs : MultiFieldSet) (points : multiField),
    New refPlatform widePoints = Ok mfs ∧
    GetFieldByName mfs "points" = Some points ∧
    UpdateMode (toField points) = Incremental ∧
    2 ^ 55 + 150 ≤ maxAbsolute points ∧
    let r0 := storeWith "player1" (Finite (2 ^ 55) 0) in
    let first := IncreaseScore refPlatform mfs r0 [("points", Finite 100 0)] "player1" in
    let second :=
      IncreaseScore refPlatform mfs (snd first) [("points", Finite 50 0)] "player1" in
    let single := IncreaseScore refPlatform mfs r0 [("points", Finite 150 0)] "player1" in
    fst first = Ok (2 ^ 55 + 100) ∧
    fst second = Ok (2 ^ 55 + 146) ∧
    fst single = Ok (2 ^ 55 + 150).
Proof.
  eexists _, _. split; [vm_compute; reflexivity|].
  split; [vm_compute; reflexivity|]. split; [reflexivity|].
  split; [vm_compute; discriminate|].
  split; [vm_compute; reflexivity|]. split; vm_compute; reflexivity.
Qed.

(** The mask of the unbounded field breaks additivity as well, without any
    rounding: in [mainInTheMiddle], from the score 2^53 (a = 1), a +100 and
    then a +50 give 254 * 2^53, a +150 gives 152 * 2^53. *)
Lemma additivity_lost_below_main :
  ∃ mfs : MultiFieldSet,
    New refPlatform mainInTheMiddle = Ok mfs ∧
    let r0 := storeWith "player1" (Finite (2 ^ 53) 0) in
    let first := IncreaseScore refPlatform mfs r0 [("a", Finite 100 0)] "player1" in
    let second :=
      IncreaseScore refPlatform mfs (snd first) [("a", Finite 50 0)] "player1" in
    let single := IncreaseScore refPlatform mfs r0 [("a", Finite 150 0)] "player1" in
    fst first = Ok (102 * 2 ^ 53) ∧
    fst second = Ok (254 * 2 ^ 53) ∧
    fst single = Ok (152 * 2 ^ 53).
Proof.
  eexists. split; [vm_compute; reflexivity|].
  split; [vm_compute; reflexivity|]. split; vm_compute; reflexivity.
Qed.

Lemma New_accepts_fixed_width_fields_witness :
  ∃ mfs : MultiFieldSet,
    New refPlatform negativeMax = Ok mfs ∧
    ∀ (k : nat) (f : multiField),
      fields mfs !! k = Some f → float_le0 (MaxValue (toField f)) = true →
      bits f = 1 ∧ maxAbsolute f = 1.
Proof.
  destruct (New_accepts_fixed_width_fields refPlatform negativeMax)
    as (mfs & HN & _ & Hbits).
  - discriminate.
  - discriminate.
  - discriminate.
  - repeat constructor.
  - vm_compute; discriminate.
  - exists mfs. split; [exact HN | exact Hbits].
Defined.

(** C2 as stated fails: a negative MaxValue is accepted, and so are two
    fixed-width fields of 82 bits in total. *)
Lemma bad_specifications_accepted :
  (∃ mfs : MultiFieldSet, New refPlatform negativeMax = Ok mfs) ∧
  (∃ mfs : MultiFieldSet,
     New refPlatform tooWide = Ok mfs ∧ totalWidth (fields mfs) = 82 ∧
     Forall (fun f => isMain f = false) (fields mfs)).
Proof.
  split.
  - eexists. vm_compute; reflexivity.
  - eexists. split; [vm_compute; reflexivity|].
    split; [reflexivity | repeat constructor].
Qed.


(** ** The further properties at concrete inputs *)

Lemma New_killsDeaths : New refPlatform killsDeaths = Ok killsDeathsSet.
Proof. vm_compute. reflexivity. Qed.

Lemma slot_holds_declared_maximum_witness :
  maxAbsolute deathsField = 2 ^ bits deathsField - 1 ∧
  truncate 10000 0 ≤ maxAbsolute deathsField ∧
  (1 ≤ truncate 10000 0 → maxAbsolute deathsField < 2 * truncate 10000 0).
Proof.
  apply (slot_holds_declared_maximum refPlatform killsDeaths killsDeathsSet 1
           deathsField 10000 0).
  - vm_compute; reflexivity.
  - reflexivity.
  - reflexivity.
  - vm_compute. split; [discriminate | reflexivity].
Defined.

Lemma fractional_maximum_gives_empty_slot_witness :
  ∃ (set : MultiFieldSet) (f : multiField),
    New refPlatform halfPoint = Ok set ∧ fields set !! 0%nat = Some f ∧
    bits f = 0 ∧ mask f = 0 ∧ maxAbsolute f = 0 ∧ ∀ v : Z, inRange f v → v = 0.
Proof.
  eexists _, _. split; [vm_compute; reflexivity|]. split; [reflexivity|].
  eapply (fractional_maximum_gives_empty_slot refPlatform halfPoint _ 0 _ 1 (-1)).
  - vm_compute; reflexivity.
  - reflexivity.
  - reflexivity.
  - lia.
  - reflexivity.
Defined.

Lemma fixed_width_masks_disjoint_witness :
  Z.land (mask killsField) (mask deathsField) = 0.
Proof.
  apply (fixed_width_masks_disjoint refPlatform killsDeaths killsDeathsSet 0 1).
  - vm_compute; reflexivity.
  - discriminate.
  - reflexivity.
  - reflexivity.
  - reflexivity.
  - reflexivity.
Defined.

Lemma extractFieldScore_range_witness :
  0 ≤ extractFieldScore killsField (Some (-1)) ∧
  (isMain killsField = false →
   extractFieldScore killsField (Some (-1)) ≤ maxAbsolute killsField) ∧
  (isMain killsField = true → extractFieldScore killsField (Some (-1)) < 2 ^ 53).
Proof.
  apply (extractFieldScore_range refPlatform killsDeaths killsDeathsSet 0).
  - vm_compute; reflexivity.
  - reflexivity.
Defined.

Lemma inRange_killsDeaths (a b : Z) :
  0 ≤ a ≤ 16383 → 0 ≤ b ≤ 16383 →
  Forall2 inRange (fields killsDeathsSet) [a; b].
Proof. intros Ha Hb. constructor; [done|]. constructor; [done|]. constructor. Qed.

Lemma pack_lexicographic_witness :
  ∃ zv zw : Z,
    scoresToZScore killsDeathsSet [1; 16383] = Ok zv ∧
    scoresToZScore killsDeathsSet [2; 0] = Ok zw ∧
    (zv < zw ↔ lexLt [1; 16383] [2; 0]).
Proof.
  apply (pack_lexicographic refPlatform killsDeaths killsDeathsSet).
  - vm_compute; reflexivity.
  - apply inRange_killsDeaths; lia.
  - apply inRange_killsDeaths; lia.
Defined.

Lemma pack_injective_witness :
  scoresToZScore killsDeathsSet [1; 5] = Ok 16389 ∧
  scoresToZScore killsDeathsSet [0 + 1; 2 + 3] = Ok 16389 ∧
  [1; 5] = [0 + 1; 2 + 3].
Proof.
  split; [vm_compute; reflexivity|]. split; [vm_compute; reflexivity|].
  apply (pack_injective refPlatform killsDeaths killsDeathsSet
           [1; 5] [0 + 1; 2 + 3] 16389).
  - vm_compute; reflexivity.
  - apply inRange_killsDeaths; lia.
  - apply inRange_killsDeaths; lia.
  - vm_compute; reflexivity.
  - vm_compute; reflexivity.
Defined.

Lemma packed_scalar_fits_witness :
  ∃ z : Z,
    scoresToZScore killsDeathsSet [16383; 16383] = Ok z ∧
    0 ≤ z < 2 ^ totalWidth (fields killsDeathsSet) ∧
    (totalWidth (fields killsDeathsSet) ≤ 53 →
     int64_of_float refPlatform (float64_of_int64 (Int64 z)) = z).
Proof.
  apply (packed_scalar_fits refPlatform killsDeaths killsDeathsSet).
  - vm_compute; reflexivity.
  - apply inRange_killsDeaths; lia.
Defined.

Lemma unpack_then_pack_witness :
  scoresToZScore killsDeathsSet (getFieldScores killsDeathsSet (Some 123456789))
  = Ok 123456789.
Proof.
  apply (unpack_then_pack refPlatform killsDeaths killsDeathsSet).
  - vm_compute; reflexivity.
  - vm_compute; discriminate.
  - vm_compute. split; [discriminate | reflexivity].
Defined.

Lemma unbounded_first_takes_headroom_witness :
  ∃ (set : MultiFieldSet) (f : multiField),
    New refPlatform mainFirst = Ok set ∧
    fields set !! 0%nat = Some f ∧ shiftValue f = 8 ∧ bits f = 45 ∧
    totalWidth (fields set) = 53.
Proof.
  destruct (New refPlatform mainFirst) as [set | e |] eqn:HN;
    [| vm_compute in HN; discriminate HN | vm_compute in HN; discriminate HN].
  destruct (unbounded_first_takes_headroom refPlatform mainFirst set
              (unboundedField "m") [boundedField "b" 255]
              eq_refl eq_refl ltac:(repeat constructor) HN)
    as (f & Hf & _ & _ & Hs & Hb & _ & Ht).
  exists set, f. split; [reflexivity|]. split; [exact Hf|].
  split; [exact Hs|]. split; [exact Hb | exact Ht].
Defined.

Lemma IncreaseScore_never_panics_witness :
  fst (IncreaseScore refPlatform killsDeathsSet (storeWith "player1" (Finite (-7) 0))
         [("kills", Finite 100000 0); ("nosuch", NaN)] "player1") ≠ Panic.
Proof.
  apply (IncreaseScore_never_panics refPlatform killsDeaths killsDeathsSet).
  exact New_killsDeaths.
Defined.

Lemma only_the_member_is_written_witness :
  ZScore (snd (IncreaseScore refPlatform killsDeathsSet
                 (storeWith "player2" (Finite 9 0))
                 [("deaths", Finite 1 0)] "player1")) "leaderboard" "player2"
  = ZScore (storeWith "player2" (Finite 9 0)) "leaderboard" "player2".
Proof.
  apply (only_the_member_is_written refPlatform killsDeathsSet
           (storeWith "player2" (Finite 9 0)) [("deaths", Finite 1 0)]
           "player1" "leaderboard" "player2").
  right. discriminate.
Defined.

Lemma new_or_replaced_field_reads_amount_witness :
  ∃ (z : Z) (r' : redis),
    IncreaseScore refPlatform killsDeathsSet emptyStore
      [("kills", Finite 5 0); ("deaths", Finite 2 0)] "player1" = (Ok z, r') ∧
    GetScoreForField refPlatform killsDeathsSet r' "kills" "player1"
      = Ok (int64_of_float refPlatform (Finite 5 0)).
Proof.
  eexists _, _. split; [vm_compute; reflexivity|].
  eapply (new_or_replaced_field_reads_amount refPlatform killsDeaths killsDeathsSet
            emptyStore _ [("kills", Finite 5 0); ("deaths", Finite 2 0)]
            "player1" "kills" (Finite 5 0) killsField).
  - exact New_killsDeaths.
  - vm_compute; discriminate.
  - intros c Hc. vm_compute in Hc. discriminate Hc.
  - apply NoDup_cons. split; [|apply NoDup_singleton].
    intros Hin. apply list_elem_of_singleton in Hin. discriminate Hin.
  - apply list_elem_of_here.
  - vm_compute; reflexivity.
  - left. reflexivity.
  - vm_compute; reflexivity.
Defined.

Lemma incremental_update_adds_to_reading_witness :
  ∃ (z old : Z) (r' : redis),
    IncreaseScore refPlatform killsDeathsSet
      (storeWith "player1" (Finite 268337154 0))
      [("kills", Finite 3 0)] "player1" = (Ok z, r') ∧
    GetScoreForField refPlatform killsDeathsSet
      (storeWith "player1" (Finite 268337154 0)) "kills" "player1" = Ok old ∧
    GetScoreForField refPlatform killsDeathsSet r' "kills" "player1"
      = Ok (old + int64_of_float refPlatform (Finite 3 0)).
Proof.
  destruct (incremental_update_adds_to_reading refPlatform killsDeaths killsDeathsSet
              (storeWith "player1" (Finite 268337154 0))
              (snd (IncreaseScore refPlatform killsDeathsSet
                      (storeWith "player1" (Finite 268337154 0))
                      [("kills", Finite 3 0)] "player1"))
              [("kills", Finite 3 0)] "player1" "kills" (Finite 3 0)
              (Finite 268337154 0) killsField 268288002)
    as (old & Hold & Hnew).
  - exact New_killsDeaths.
  - vm_compute; discriminate.
  - vm_compute; reflexivity.
  - vm_compute. split; [discriminate | reflexivity].
  - apply NoDup_singleton.
  - apply list_elem_of_here.
  - vm_compute; reflexivity.
  - reflexivity.
  - vm_compute; reflexivity.
  - eexists _, old, _. split; [vm_compute; reflexivity|]. split; [exact Hold|].
    exact Hnew.
Defined.

Lemma unnamed_fields_keep_their_reading_witness :
  GetScoreForField refPlatform killsDeathsSet
    (snd (IncreaseScore refPlatform killsDeathsSet
            (storeWith "player1" (Finite 268337154 0))
            [("kills", Finite 3 0)] "player1")) "deaths" "player1"
  = GetScoreForField refPlatform killsDeathsSet
      (storeWith "player1" (Finite 268337154 0)) "deaths" "player1".
Proof.
  apply (unnamed_fields_keep_their_reading refPlatform killsDeaths killsDeathsSet
           (storeWith "player1" (Finite 268337154 0)) _ [("kills", Finite 3 0)]
           "player1" "deaths" (Finite 268337154 0) deathsField 268288002).
  - exact New_killsDeaths.
  - vm_compute; discriminate.
  - vm_compute; reflexivity.
  - vm_compute. split; [discriminate | reflexivity].
  - vm_compute; reflexivity.
  - intros Hin. apply list_elem_of_singleton in Hin. discriminate Hin.
  - vm_compute; reflexivity.
Defined.

Lemma GetScoreForField_agrees_with_GetScores_witness :
  ∃ v : Z,
    GetScoreForField refPlatform killsDeathsSet
      (storeWith "player1" (Finite 268337154 0)) "kills" "player1" = Ok v ∧
    [ {| fsName := "kills"; fsScore := 5 |}; {| fsName := "deaths"; fsScore := 2 |} ]
      !! position killsField = Some {| fsName := "kills"; fsScore := v |}.
Proof.
  destruct (GetScoreForField_agrees_with_GetScores refPlatform killsDeaths
              killsDeathsSet (storeWith "player1" (Finite 268337154 0))
              "kills" "player1" killsField New_killsDeaths eq_refl) as [Hok _].
  apply Hok. vm_compute. reflexivity.
Defined.

Lemma reset_member_reads_zero_witness :
  ∃ r' : redis,
    ResetMember killsDeathsSet emptyStore "player1" = (Ok tt, r') ∧
    GetScores refPlatform killsDeathsSet r' "player1"
      = Ok [ {| fsName := "kills"; fsScore := 0 |};
             {| fsName := "deaths"; fsScore := 0 |} ] ∧
    GetScores refPlatform killsDeathsSet emptyStore "player1"
      = Ok [ {| fsName := "kills"; fsScore := 16383 |};
             {| fsName := "deaths"; fsScore := 0 |} ].
Proof.
  destruct (reset_member_reads_zero refPlatform killsDeaths killsDeathsSet
              emptyStore "player1" New_killsDeaths)
    as (r' & Hreset & Hread & Habsent).
  - vm_compute; discriminate.
  - reflexivity.
  - reflexivity.
  - exists r'. split; [exact Hreset|]. split; [exact Hread|].
    apply Habsent. reflexivity.
Defined.

Lemma reset_member_updates_as_absent_witness :
  fst (IncreaseScore refPlatform killsDeathsSet
         (snd (ResetMember killsDeathsSet emptyStore "player1"))
         [("kills", Finite 5 0)] "player1")
  = fst (IncreaseScore refPlatform killsDeathsSet emptyStore
           [("kills", Finite 5 0)] "player1").
Proof.
  apply (reset_member_updates_as_absent refPlatform killsDeaths killsDeathsSet
           emptyStore (snd (ResetMember killsDeathsSet emptyStore "player1"))
           [("kills", Finite 5 0)] "player1").
  - exact New_killsDeaths.
  - vm_compute; discriminate.
  - reflexivity.
  - reflexivity.
Defined.

Lemma MaxScoreWithFields_as_new_member_witness :
  MaxScoreWithFields refPlatform killsDeathsSet [] = Ok 268419072 ∧
  MaxScoreWithFields refPlatform killsDeathsSet
    [("kills", Finite 5 0); ("deaths", Finite 2 0)] = Ok 268337154.
Proof.
  destruct (MaxScoreWithFields_as_new_member refPlatform killsDeaths killsDeathsSet
              New_killsDeaths) as [(dz & Hdz & Hempty) Hlimits].
  injection Hdz as <-. split; [exact Hempty|].
  apply (Hlimits emptyStore
           (snd (IncreaseScore refPlatform killsDeathsSet emptyStore
                   [("kills", Finite 5 0); ("deaths", Finite 2 0)] "player1"))
           _ "player1").
  - apply NoDup_cons. split; [|apply NoDup_singleton].
    intros Hin. apply list_elem_of_singleton in Hin. discriminate Hin.
  - reflexivity.
  - vm_compute; reflexivity.
Defined.

Lemma GetFieldByName_finds_declared_fields_witness :
  GetFieldByName killsDeathsSet "deaths" = Some deathsField ∧
  (GetFieldByName killsDeathsSet "wins" = None ↔
   "wins" ∉ map Name (optFields killsDeaths)).
Proof.
  destruct (GetFieldByName_finds_declared_fields refPlatform killsDeaths
              killsDeathsSet New_killsDeaths) as (Hnone & _ & Hall).
  split; [|apply Hnone].
  apply (Hall ltac:(vm_compute; apply NoDup_cons; split;
                    [intros Hin; apply list_elem_of_singleton in Hin; discriminate Hin
                    | apply NoDup_singleton]) 1%nat deathsField eq_refl).
Defined.

Lemma GetFieldsInfo_lists_declarations_witness :
  length (GetFieldsInfo killsDeathsSet) = length (optFields killsDeaths) ∧
  ∃ info : FieldInfo,
    GetFieldsInfo killsDeathsSet !! 0%nat = Some info ∧
    infoName info = "kills" ∧ infoUpdateType info = "INCREMENTAL" ∧
    infoMaxAbsolute info = 2 ^ infoBits info - 1.
Proof.
  destruct (GetFieldsInfo_lists_declarations refPlatform killsDeaths killsDeathsSet
              New_killsDeaths) as [Hlen Hall].
  split; [exact Hlen|].
  destruct (Hall 0%nat _ eq_refl)
    as (info & Hk & Hn & _ & _ & _ & _ & Hu & Hm & _).
  exists info. split; [exact Hk|]. split; [exact Hn|]. split; [exact Hu | exact Hm].
Defined.

Lemma CalculateScoresFromZScore_agrees_witness :
  GetScoreForField refPlatform killsDeathsSet
    (storeWith "player1" (Finite 268337154 0)) "kills" "player1"
  = match CalculateScoresFromZScore killsDeathsSet
            (Some (int64_of_float refPlatform (Finite 268337154 0))) !! "kills" with
    | Some v => Ok v
    | None => Err (ErrFieldNotFound "kills")
    end.
Proof.
  destruct (CalculateScoresFromZScore_agrees refPlatform killsDeaths killsDeathsSet
              New_killsDeaths) as [Hread _].
  - vm_compute. apply NoDup_cons. split; [|apply NoDup_singleton].
    intros Hin. apply list_elem_of_singleton in Hin. discriminate Hin.
  - apply Hread. vm_compute. reflexivity.
Defined.

Lemma game_leaderboard_is_54_bits_witness :
  ∃ gl : GameLeaderboard,
    NewGameLeaderboard refPlatform (Some ClientHandle) "mygame:leaderboard" = Ok gl ∧
    totalWidth (fields (mfs gl)) = 54.
Proof.
  destruct (game_leaderboard_is_54_bits refPlatform "mygame:leaderboard" ClientHandle)
    as (gl & Hgl & _ & Hw & _).
  - discriminate.
  - exists gl. split; [exact Hgl | exact Hw].
Defined.

Lemma first_win_is_lost_witness :
  ∃ r' : redis,
    AddWin refPlatform {| mfs := gameSet "mygame:leaderboard" ClientHandle |}
      emptyStore "player1" = (Ok tt, r') ∧
    GetScores refPlatform (gameSet "mygame:leaderboard" ClientHandle) r' "player1"
      = Ok [ {| fsName := "points"; fsScore := 0 |};
             {| fsName := "wins"; fsScore := 0 |};
             {| fsName := "playtime"; fsScore := 1048575 |} ].
Proof.
  apply (first_win_is_lost refPlatform "mygame:leaderboard" "player1" ClientHandle
           {| mfs := gameSet "mygame:leaderboard" ClientHandle |} emptyStore).
  - discriminate.
  - vm_compute; reflexivity.
  - reflexivity.
  - reflexivity.
Defined.

Lemma roundtrip_fixed_width_or_first_witness :
  ∃ z : Z,
    scoresToZScore killsDeathsSet [7; 9] = Ok z ∧
    extractFieldScore deathsField (Some z) = 9.
Proof.
  apply (roundtrip_fixed_width_or_first refPlatform killsDeaths killsDeathsSet
           [7; 9] 1 deathsField 9).
  - exact New_killsDeaths.
  - apply inRange_killsDeaths; lia.
  - reflexivity.
  - reflexivity.
  - left. reflexivity.
Defined.

Lemma roundtrip_within_53_bits_witness :
  ∃ z : Z,
    scoresToZScore killsDeathsSet [7; 9] = Ok z ∧
    getFieldScores killsDeathsSet (Some z) = [7; 9].
Proof.
  apply (roundtrip_within_53_bits refPlatform killsDeaths killsDeathsSet [7; 9]).
  - exact New_killsDeaths.
  - vm_compute; discriminate.
  - apply inRange_killsDeaths; lia.
Defined.
